(** * The request pipeline of [src/lib/server.js]

    A shallow embedding of the [Server] class: the middleware stack it
    composes, the request-lifecycle middleware [createReqLogger], and the
    terminal error handler with its static table [statusCodeByErrorName].

    JavaScript values are modelled as far as the handler inspects them:
    truthiness, strict equality, property keys and property lookup along the
    prototype chain of an object literal.  Error objects live in a heap and
    are passed by reference, since the handler assigns to [err.statusCode].

    Scope.  The error handed to the error handler is an ordinary, extensible
    object whose [toString()] returns a string.  The logger is seen through
    the calls the server makes on it: a log call is recorded with the
    context of the logger it goes through.  Of Express and of the response
    the model has what the server's code runs into: [res.status] takes any
    value, [res.send] throws when the code on the response is not a valid
    status, what a layer throws past the last error handler is answered by
    Express's final handler, and [req.url] is rewritten around a mounted
    handler group. *)

From stdpp Require Import gmap strings list pretty sorting.

Open Scope string_scope.
Open Scope Z_scope.

(** ** JavaScript values *)

Module JS.

Definition loc := nat.

(** Numbers are restricted to integers and NaN, which is all a status code
    needs; [VNative f] is the built-in function object named [f] and
    [VObjectPrototype] the object [Object.prototype]; [VObj l] is a
    reference to an error object in the heap. *)
Inductive value :=
| VUndefined
| VNull
| VBool (b : bool)
| VNum (n : Z)
| VNaN
| VStr (s : string)
| VNative (f : string)
| VObjectPrototype
| VObj (l : loc).

#[global] Instance value_eq_dec : EqDecision value.
Proof. solve_decision. Defined.

(** ToBoolean: [undefined], [null], [false], [0], [NaN] and the empty
    string are falsy, everything else is truthy. *)
Definition truthy (v : value) : bool :=
  match v with
  | VUndefined | VNull | VNaN => false
  | VBool b => b
  | VNum n => negb (n =? 0)
  | VStr s => negb (String.eqb s "")
  | VNative _ | VObjectPrototype | VObj _ => true
  end.

(** [a === b]: same type and same value; [NaN] equals nothing, objects are
    compared by reference. *)
Definition strict_equals (a b : value) : bool :=
  match a, b with
  | VNaN, _ | _, VNaN => false
  | _, _ => bool_decide (a = b)
  end.

(** [a || b] *)
Definition or (a b : value) : value := if truthy a then a else b.

(** The properties every object literal inherits from [Object.prototype]. *)
Definition Object_prototype_methods : list string :=
  [ "hasOwnProperty"; "isPrototypeOf"; "propertyIsEnumerable";
    "toLocaleString"; "toString"; "valueOf";
    "__defineGetter__"; "__defineSetter__";
    "__lookupGetter__"; "__lookupSetter__" ].

Definition Object_prototype (k : string) : option value :=
  if decide (k = "constructor") then Some (VNative "Object")
  else if decide (k = "__proto__") then Some VObjectPrototype
  else if decide (k ∈ Object_prototype_methods) then Some (VNative k)
  else None.

(** [o[k]] for an object literal with own properties [own]: the own
    property if there is one, else the inherited one, else [undefined]. *)
Definition get (own : gmap string value) (k : string) : value :=
  match own !! k with
  | Some v => v
  | None => default VUndefined (Object_prototype k)
  end.

End JS.

Import JS.

(** ** Error objects, loggers, requests *)

(** An error object as the handler sees it: the values read from its
    [name], [message] and [statusCode] properties, and the string its
    [toString()] returns. *)
Record error_object := ErrorObject {
  name : value;
  message : value;
  statusCode : value;
  toString : string
}.

#[global] Instance error_object_eq_dec : EqDecision error_object.
Proof. solve_decision. Defined.

Definition set_statusCode (v : value) (e : error_object) : error_object :=
  {| name := name e; message := message e; statusCode := v;
     toString := toString e |}.

Inductive level := info | error | verbose.

#[global] Instance level_eq_dec : EqDecision level.
Proof. solve_decision. Defined.

(** A logger is known by the context it stamps on its entries. *)
Record logger := Logger { bindings : gmap string string }.

(** Modelled from the spec: the structured logger is an injected
    collaborator whose code is not part of [server.js]; its interface is
    [child(context) -> Logger], producing a logger scoped by the given
    context on top of its parent's. *)
Definition child (parent : logger) (context : gmap string string) : logger :=
  {| bindings := context ∪ bindings parent |}.

(** What a log call passes after the message. *)
Inductive meta :=
| IncomingRequest (httpVersion method url : string)
                  (headers trailers : gmap string string)
| OutgoingResponse (httpVersion method url : string)
                   (statusCode : value) (duration : Z)
| ErrorDetail (err : loc)
| Text (s : string).

Record entry := Entry {
  entry_bindings : gmap string string;
  entry_level : level;
  entry_message : string;
  entry_meta : meta
}.

Record request := Request {
  httpVersion : string;
  method : string;
  url : string;
  headers : gmap string string;
  trailers : gmap string string;
  _startTime : option Z;
  req_logger : option logger
}.

(** ** The world of one request *)

(** What can be observed from outside, in program order: a log call, an
    assignment to [err.statusCode], a call [res.send(body)] made while the
    response held the code [status], and the answer of Express's final
    handler. *)
Inductive event :=
| Logged (e : entry)
| Assigned (err : loc) (v : value)
| Sent (status body : value)
| Finalized (status : value).

(** A completion listener attached to the response. *)
Inductive listener := egress.

Record state := State {
  heap : gmap loc error_object;
  req : request;
  res_statusCode : value;
  listeners : list listener;
  now : Z;
  out : list event
}.

Inductive exn :=
| TypeError (what : string)
| RangeError (what : string).

Inductive outcome (A : Type) :=
| Return (a : A) (s : state)
| Throw (e : exn) (s : state).
Arguments Return {A} a s.
Arguments Throw {A} e s.

Definition final {A} (o : outcome A) : state :=
  match o with
  | Return _ s | Throw _ s => s
  end.

Definition returns {A} (o : outcome A) : bool :=
  match o with
  | Return _ _ => true
  | Throw _ _ => false
  end.

Definition M (A : Type) : Type := state → outcome A.

#[global] Instance M_ret : MRet M := λ A a s, Return a s.
#[global] Instance M_bind : MBind M := λ A B f m s,
  match m s with
  | Return a s' => f a s'
  | Throw e s' => Throw e s'
  end.

Definition throw {A} (e : exn) : M A := λ s, Throw e s.
Definition gets {A} (f : state → A) : M A := λ s, Return (f s) s.
Definition modify (f : state → state) : M unit := λ s, Return tt (f s).

Definition emit (ev : event) : M unit :=
  modify (λ s, {| heap := heap s; req := req s;
                  res_statusCode := res_statusCode s;
                  listeners := listeners s; now := now s;
                  out := out s ++ [ev] |}).

Definition put_heap (l : loc) (e : error_object) : M unit :=
  modify (λ s, {| heap := <[l := e]> (heap s); req := req s;
                  res_statusCode := res_statusCode s;
                  listeners := listeners s; now := now s; out := out s |}).

Definition put_req (r : request) : M unit :=
  modify (λ s, {| heap := heap s; req := r;
                  res_statusCode := res_statusCode s;
                  listeners := listeners s; now := now s; out := out s |}).

Definition put_listeners (ls : list listener) : M unit :=
  modify (λ s, {| heap := heap s; req := req s;
                  res_statusCode := res_statusCode s;
                  listeners := ls; now := now s; out := out s |}).

(** [res.status(code)]: records the code on the response, whatever it is. *)
Definition status (code : value) : M unit :=
  modify (λ s, {| heap := heap s; req := req s; res_statusCode := code;
                  listeners := listeners s; now := now s; out := out s |}).

(** The status codes a response can be written with: the integers from 100
    to 999.  Anything else on the response makes the write fail with a
    RangeError.  Codes are numbers here: one given as a string is outside
    the scope of this development and counted with the invalid ones. *)
Definition valid_status (code : value) : bool :=
  match code with
  | VNum n => (100 <=? n) && (n <=? 999)
  | _ => false
  end.

(** [res.send(body)]: the call is made with the code the response holds;
    it writes the response when that code is a valid status and throws
    otherwise, with nothing written. *)
Definition send (body : value) : M unit :=
  code ← gets res_statusCode;
  emit (Sent code body);;
  if valid_status code then mret tt
  else throw (RangeError "Invalid status code").

(** The status codes of the responses that were written to the client: the
    [send] calls made with a valid status, and the answers of Express's
    final handler. *)
Definition delivered (evs : list event) : list value :=
  omap (λ ev, match ev with
              | Sent c _ => if valid_status c then Some c else None
              | Finalized c => Some c
              | _ => None
              end) evs.

(** Reading a property of the object [err] refers to. *)
Definition deref (err : loc) : M error_object :=
  h ← gets heap;
  match h !! err with
  | Some e => mret e
  | None => throw (TypeError "dangling reference")
  end.

(** [err.statusCode = v] on an ordinary, extensible object. *)
Definition assign_statusCode (err : loc) (v : value) : M unit :=
  e ← deref err;
  put_heap err (set_statusCode v e);;
  emit (Assigned err v).

(** ToPropertyKey on the values modelled: primitives print as JavaScript
    prints them (integers in decimal, as it does below 10^21), an object
    through its own [toString()]. *)
Definition toPropertyKey (h : gmap loc error_object) (v : value)
  : option string :=
  match v with
  | VUndefined => Some "undefined"
  | VNull => Some "null"
  | VBool true => Some "true"
  | VBool false => Some "false"
  | VNum n => Some (pretty n)
  | VNaN => Some "NaN"
  | VStr s => Some s
  | VNative f => Some ("function " ++ f ++ "() { [native code] }")
  | VObjectPrototype => Some "[object Object]"
  | VObj l => toString <$> h !! l
  end.

Definition propertyKey (v : value) : M string :=
  h ← gets heap;
  match toPropertyKey h v with
  | Some k => mret k
  | None => throw (TypeError "dangling reference")
  end.

(** [req.logger], which must be an object before a method of it is called. *)
Definition the_logger : M logger :=
  r ← gets req;
  match req_logger r with
  | Some lg => mret lg
  | None => throw (TypeError "Cannot read properties of undefined")
  end.

(** [req.logger.<level>(message, meta)] *)
Definition log (lv : level) (msg : string) (m : meta) : M unit :=
  lg ← the_logger;
  emit (Logged {| entry_bindings := bindings lg; entry_level := lv;
                  entry_message := msg; entry_meta := m |}).

(** ** The static classification table *)

Module Server.

Definition statusCodeByErrorName : gmap string value :=
  <["ValidationError" := VNum 400]> (<["CastError" := VNum 400]> ∅).

End Server.

(** ** The error handler, lines 125-133 *)

(** [err] is a reference, hence truthy; each [err.name], [err.statusCode]
    and [err.toString()] reads the object as it is at that point. *)
Definition errorHandler (err : loc) : M unit :=
  e ← deref err;
  if truthy (VObj err) && strict_equals (name e) (VStr "UnauthorizedError")
  then
    status (VNum 401);; send (message e)
  else
    (if truthy (statusCode e) then mret tt
     else
       k ← propertyKey (name e);
       assign_statusCode err
         (or (get Server.statusCodeByErrorName k) (VNum 500)));;
    e1 ← deref err;
    log error (toString e1) (ErrorDetail err);;
    e2 ← deref err;
    log verbose "Responding to client" (Text (toString e2));;
    e3 ← deref err;
    status (statusCode e3);; send (VStr (toString e3)).

(** ** The request-lifecycle middleware, lines 68-93 *)

(** The argument of [this.logger.child] on line 71. *)
Definition requestId_context (hs : gmap string string) : gmap string string :=
  match hs !! "x-request-id" with
  | Some id => if truthy (VStr id) then {["requestId" := id]} else ∅
  | None => ∅
  end.

(** Modelled from the spec: [onFinished] is the external on-finished
    package; it registers a completion hook that fires exactly once when the
    response stream finishes (on success, client disconnect, or error-path
    completion).  Registration appends the listener to those pending on the
    response; [stream_ends] below fires and detaches them. *)
Definition onFinished (l : listener) : M unit :=
  ls ← gets listeners; put_listeners (ls ++ [l]).

(** [req._startTime = t] and [req.logger = lg] on the request object. *)
Definition set_startTime (t : Z) : M unit :=
  r ← gets req;
  put_req {| httpVersion := httpVersion r; method := method r; url := url r;
             headers := headers r; trailers := trailers r;
             _startTime := Some t; req_logger := req_logger r |}.

Definition set_logger (lg : logger) : M unit :=
  r ← gets req;
  put_req {| httpVersion := httpVersion r; method := method r; url := url r;
             headers := headers r; trailers := trailers r;
             _startTime := _startTime r; req_logger := Some lg |}.

(** The middleware itself; it ends with [next(null)], which hands the
    request to the next layer. *)
Definition createReqLogger (this_logger : logger) : M unit :=
  t ← gets now;
  set_startTime t;;
  r ← gets req;
  set_logger (child this_logger (requestId_context (headers r)));;
  r ← gets req;
  log info "Incoming request"
    (IncomingRequest (httpVersion r) (method r) (url r)
                     (headers r) (trailers r));;
  onFinished egress.

(** The callback of lines 82-90.  The duration is kept in milliseconds;
    its rendering by pretty-ms is outside the server's code. *)
Definition fire (l : listener) : M unit :=
  match l with
  | egress =>
      r ← gets req;
      code ← gets res_statusCode;
      t ← gets now;
      match _startTime r with
      | Some t0 =>
          log info "Outgoing response"
            (OutgoingResponse (httpVersion r) (method r) (url r) code (t - t0))
      | None =>
          the_logger;; throw (TypeError "Expected a finite number")
      end
  end.

Fixpoint fire_all (ls : list listener) : M unit :=
  match ls with
  | [] => mret tt
  | l :: ls' => fire l;; fire_all ls'
  end.

(** Modelled from the spec: the response stream finishing, for whichever
    reason.  Each pending completion hook fires and is detached, so a later
    signal on the same stream finds nothing to fire. *)
Definition stream_ends : M unit :=
  ls ← gets listeners;
  put_listeners [];;
  fire_all ls.

(** ** The middleware stack, lines 61-135 *)

(** The functions pushed on the stack, by what they are: [reqLogger] is
    [createReqLogger], [errorClassifier] the anonymous error handler, the
    others are imported. *)
Inductive middleware :=
| reqLogger
| cors
| bodyParserRaw
| bodyParserJson
| expressRest
| authorization
| rootRouter
| authRouter
| userRouter
| roleRouter
| statsRouter
| personRouter
| permissionRouter
| notificationRouter
| organizationRouter
| personRequestRouter
| contributorRouter
| errorClassifier.

#[global] Instance middleware_eq_dec : EqDecision middleware.
Proof. solve_decision. Defined.

(** A handler group is one of the resource routers. *)
Definition is_router (m : middleware) : bool :=
  match m with
  | rootRouter | authRouter | userRouter | roleRouter | statsRouter
  | personRouter | permissionRouter | notificationRouter
  | organizationRouter | personRequestRouter | contributorRouter => true
  | _ => false
  end.

(** [expressApp.use(path, ...fns)] pushes one layer per function, in the
    order given, all under [path]; without a path the layer sits at ["/"]. *)
Definition use (path : string) (fns : list middleware)
    (app : list (string * middleware)) : list (string * middleware) :=
  app ++ ((λ f, (path, f)) <$> fns).

Definition _setupExpressMiddleware (app : list (string * middleware))
  : list (string * middleware) :=
  let app := use "/" [reqLogger] app in
  let app := use "/" [cors] app in
  let app := use "/" [bodyParserRaw] app in
  let app := use "/" [bodyParserJson] app in
  use "/" [expressRest] app.

Definition _setupExpressRoutes (app : list (string * middleware))
  : list (string * middleware) :=
  let app := use "/" [rootRouter] app in
  let app := use "/auth" [authRouter] app in
  let app := use "/stats" [authorization; statsRouter] app in
  let app := use "/person" [personRouter] app in
  let app := use "/notification" [notificationRouter] app in
  let app := use "/person-request" [personRequestRouter] app in
  let app := use "/contributor" [contributorRouter] app in
  let app := use "/user" [authorization; userRouter] app in
  let app := use "/role" [authorization; roleRouter] app in
  let app := use "/permission" [authorization; permissionRouter] app in
  use "/organization" [authorization; organizationRouter] app.

Definition _setupErrorHandler (app : list (string * middleware))
  : list (string * middleware) :=
  use "/" [errorClassifier] app.

Record server := {
  this_logger : logger;
  expressApp : list (string * middleware)
}.

(** The constructor, lines 25-40. *)
Definition new_Server (lg : logger) : server :=
  {| this_logger := child lg {["context" := "Server"]};
     expressApp :=
       _setupErrorHandler (_setupExpressRoutes (_setupExpressMiddleware [])) |}.

(** The route table proper: what [_setupExpressRoutes] registers. *)
Definition route_table : list (string * middleware) := _setupExpressRoutes [].

(** The gate sits immediately before the handler group of [prefix]. *)
Definition gated (app : list (string * middleware)) (prefix : string) : Prop :=
  ∃ (i : nat) (r : middleware),
    app !! i = Some (prefix, authorization) ∧
    app !! S i = Some (prefix, r) ∧ is_router r = true.

Definition guarded_prefixes : list string :=
  ["/stats"; "/user"; "/role"; "/permission"; "/organization"].

Definition unguarded_prefixes : list string :=
  ["/"; "/auth"; "/person"; "/notification"; "/person-request";
   "/contributor"].

(** ** One request through the pipeline *)

(** Express's final handler, which gets what is thrown or passed on past
    the last error handler.  The errors that reach it here carry no status
    of their own, so it answers with the code the response holds when that
    is a number from 400 to 599 and with 500 otherwise; when a response was
    already written it writes nothing. *)
Definition finalhandler : M unit :=
  evs ← gets out;
  code ← gets res_statusCode;
  match delivered evs with
  | [] =>
      let answer :=
        match code with
        | VNum n => if (400 <=? n) && (n <=? 599) then VNum n else VNum 500
        | _ => VNum 500
        end in
      status answer;; emit (Finalized answer)
  | _ :: _ => mret tt
  end.

(** An error on its way through Express: the error handler of the server
    runs, it is the only one mounted, and what it throws goes to the final
    handler. *)
Definition dispatch_error (err : loc) : M unit := λ s,
  match errorHandler err s with
  | Return _ s' => Return tt s'
  | Throw _ s' => finalhandler s'
  end.

(** The request object with another [url]. *)
Definition rewritten (u : string) (r : request) : request :=
  {| httpVersion := httpVersion r; method := method r; url := u;
     headers := headers r; trailers := trailers r;
     _startTime := _startTime r; req_logger := req_logger r |}.

(** What happens to a request once the lifecycle middleware has run: Express
    rewrites [req.url] (it strips the mount prefix while a mounted handler
    group runs and puts it back when the group hands over), a handler group
    answers, an error is dispatched to the error handler, the response
    stream ends (finished, closed by the client, or failed), time passes. *)
Inductive step :=
| Rewrites (url : string)
| Answers (code body : value)
| Fails (err : loc)
| StreamEnds
| Elapses (ms : Z).

Definition exec (st : step) : M unit :=
  match st with
  | Rewrites u => r ← gets req; put_req (rewritten u r)
  | Answers code body => status code;; send body
  | Fails err => dispatch_error err
  | StreamEnds => stream_ends
  | Elapses ms =>
      modify (λ s, {| heap := heap s; req := req s;
                      res_statusCode := res_statusCode s;
                      listeners := listeners s; now := now s + ms;
                      out := out s |})
  end.

(** Express catches what a layer throws, so the effects made before the
    throw stay and the request goes on. *)
Definition run (steps : list step) (s : state) : state :=
  foldl (λ s st, final (exec st s)) s steps.

(** A request as it arrives: nothing attached, nothing written yet. *)
Definition arrival (h : gmap loc error_object) (r : request) (t : Z) : state :=
  {| heap := h;
     req := {| httpVersion := httpVersion r; method := method r;
               url := url r; headers := headers r; trailers := trailers r;
               _startTime := None; req_logger := None |};
     res_statusCode := VNum 200; listeners := []; now := t; out := [] |}.

Definition lifecycle (srv : server) (h : gmap loc error_object) (r : request)
    (t : Z) (steps : list step) : state :=
  run steps (final (createReqLogger (this_logger srv) (arrival h r t))).

(** ** Observations *)

Definition logged (evs : list event) : list entry :=
  omap (λ ev, match ev with Logged e => Some e | _ => None end) evs.

Definition responses (evs : list event) : list (value * value) :=
  omap (λ ev, match ev with Sent c b => Some (c, b) | _ => None end) evs.

Definition is_ingress (e : entry) : bool :=
  bool_decide (entry_level e = info) &&
  String.eqb (entry_message e) "Incoming request".

Definition is_egress (e : entry) : bool :=
  bool_decide (entry_level e = info) &&
  String.eqb (entry_message e) "Outgoing response".

Definition at_level (lv : level) (e : entry) : bool :=
  bool_decide (entry_level e = lv).

(** The events the error handler itself adds when run on [err] in [s]. *)
Definition errorPath (err : loc) (s : state) : list event :=
  drop (length (out s)) (out (final (errorHandler err s))).

(** The events the dispatch of [err] adds: those of the error handler and,
    after a throw, the answer of the final handler. *)
Definition dispatchPath (err : loc) (s : state) : list event :=
  drop (length (out s)) (out (final (dispatch_error err s))).

(** How a run that ends in [res.send] ends: normally when the response was
    written, with the RangeError of the write otherwise. *)
Definition ended (written : bool) (s : state) : outcome unit :=
  if written then Return tt s
  else Throw (RangeError "Invalid status code") s.

(** The status code the handler settles on for [e], whose kind prints as
    the property key [k]: line 129 read as an expression. *)
Definition settled (e : error_object) (k : string) : value :=
  or (statusCode e) (or (get Server.statusCodeByErrorName k) (VNum 500)).

(** ** The request after the lifecycle middleware *)

(** The request as [createReqLogger] leaves it. *)
Definition stamped (this : logger) (r : request) (t : Z) : request :=
  {| httpVersion := httpVersion r; method := method r; url := url r;
     headers := headers r; trailers := trailers r; _startTime := Some t;
     req_logger := Some (child this (requestId_context (headers r))) |}.

Definition ingress_entry (this : logger) (r : request) : entry :=
  {| entry_bindings := bindings (child this (requestId_context (headers r)));
     entry_level := info; entry_message := "Incoming request";
     entry_meta := IncomingRequest (httpVersion r) (method r) (url r)
                                   (headers r) (trailers r) |}.

(** What holds of a request at every moment after [createReqLogger]:
    the request object is the stamped one up to its url, so it keeps its
    logger and start time; the log opens with the ingress entry and holds no
    second one; the completion hook is either still pending with no egress
    entry logged, or gone with exactly one. *)
Definition settled_log (r : request) (lg : logger) (fired : bool)
    (s : state) : Prop :=
  (∃ u : string, req s = rewritten u r) ∧
  listeners s = (if fired then [] else [egress]) ∧
  ∃ (i : entry) (rest : list entry),
    logged (out s) = i :: rest ∧
    is_ingress i = true ∧ is_egress i = false ∧
    filter (λ x, is_ingress x = true) rest = [] ∧
    length (filter (λ x, is_egress x = true) rest) =
      (if fired then 1%nat else 0%nat) ∧
    Forall (λ x, entry_bindings x = bindings lg) (i :: rest).

Definition is_end (st : step) : bool :=
  match st with StreamEnds => true | _ => false end.

(** ** Sample requests and errors *)

Definition GET (path : string) (hs : gmap string string) : request :=
  {| httpVersion := "1.1"; method := "GET"; url := path; headers := hs;
     trailers := ∅; _startTime := None; req_logger := None |}.

Definition base_logger : logger := {| bindings := ∅ |}.

(** One error object at address 0, a request with or without its scoped
    logger, nothing written yet. *)
Definition world (e : error_object) (lg : option logger) : state :=
  {| heap := {[ 0%nat := e ]};
     req := {| httpVersion := "1.1"; method := "GET"; url := "/person";
               headers := ∅; trailers := ∅; _startTime := Some 0;
               req_logger := lg |};
     res_statusCode := VNum 200; listeners := []; now := 0; out := [] |}.

Definition an_error (kind : value) (code : value) : error_object :=
  {| name := kind; message := VStr "boom"; statusCode := code;
     toString := "Error: boom" |}.

(** ** Measures on the steps of a request *)

(** The time that passes over a sequence of steps. *)
Definition elapsed (steps : list step) : Z :=
  foldr (λ st acc, match st with Elapses ms => ms + acc | _ => acc end)
        0 steps.

(** The steps in which a layer works on the response: a handler group
    answering, the error handler handling. *)
Definition answers_or_fails (st : step) : bool :=
  match st with
  | Answers _ _ | Fails _ => true
  | Rewrites _ | StreamEnds | Elapses _ => false
  end.

(** The egress entry of a request [r] stamped by the server logger [this],
    for a final status code and a duration in milliseconds. *)
Definition egress_entry (this : logger) (r : request) (code : value)
    (duration : Z) : entry :=
  {| entry_bindings := bindings (child this (requestId_context (headers r)));
     entry_level := info; entry_message := "Outgoing response";
     entry_meta := OutgoingResponse (httpVersion r) (method r) (url r)
                                    code duration |}.

(** The place of a layer in the pipeline: lifecycle logging, the four
    cross-cutting middleware, the routes with their gates, the error
    handler. *)
Definition phase (m : middleware) : nat :=
  match m with
  | reqLogger => 0
  | cors => 1
  | bodyParserRaw => 2
  | bodyParserJson => 3
  | expressRest => 4
  | errorClassifier => 6
  | _ => 5
  end.

(** ** Promisifying modules, [src/unnamed/part_000] *)

(** The file exports one function: for each name of the array it is given,
    in order, it loads the module with [require] and hands it to bluebird's
    [Promise.promisifyAll].  The callback returns nothing, so lodash's
    [_.each] never leaves the loop early; only a throw does.

    [require] and [promisifyAll] are not the file's own code and are taken
    as parameters: [resolve] gives the module object a name loads, if any,
    several names possibly loading one object; [promisifyAll] rewrites the
    object it is given in place, or throws ([None]). *)
Module Promisify.

Inductive failure :=
| CannotFindModule (name : string)
| CannotPromisify (name : string).

Section Definitions.

Context {module : Type}.
Variable promisifyAll : module → option module.
Variable resolve : gmap string loc.

(** [Promise.promisifyAll(require(name))] on the store of module objects. *)
Definition promisifyOne (name : string) (store : gmap loc module)
  : gmap loc module + failure :=
  match resolve !! name with
  | None => inr (CannotFindModule name)
  | Some l =>
      match store !! l with
      | None => inr (CannotFindModule name)
      | Some m =>
          match promisifyAll m with
          | None => inr (CannotPromisify name)
          | Some m' => inl (<[l := m']> store)
          end
      end
  end.

(** The exported function: the store it leaves, and what it threw, if it
    threw. *)
Fixpoint promisifyModules (modules : list string) (store : gmap loc module)
  : gmap loc module * option failure :=
  match modules with
  | [] => (store, None)
  | name :: rest =>
      match promisifyOne name store with
      | inl store' => promisifyModules rest store'
      | inr f => (store, Some f)
      end
  end.

End Definitions.

(** A stand-in for [promisifyAll] in examples: a module is the list of its
    method names; promisifying adds the Async twin of each, and throws on a
    module that already has a method named so. *)
Definition sample_promisifyAll (m : list string) : option (list string) :=
  if bool_decide (Exists (λ f, String.eqb (String.substring
                                 (String.length f - 5) 5 f) "Async" = true) m)
  then None
  else Some (m ++ ((λ f, f +:+ "Async") <$> m))%list.

(** Two module objects; the first loads under two names, and one name
    loads nothing. *)
Definition sample_resolve : gmap string loc :=
  {[ "fs" := 0%nat; "node:fs" := 0%nat; "redis" := 1%nat ]}.

Definition sample_store : gmap loc (list string) :=
  {[ 0%nat := ["readFile"]; 1%nat := ["get"; "set"] ]}.

End Promisify.

(** * Properties *)

(** ** Values and the table *)

Lemma strict_equals_string (v : value) (u : string) :
  strict_equals v (VStr u) = bool_decide (v = VStr u).
Proof. destruct v; reflexivity. Qed.

Lemma not_unauthorized (v : value) :
  v ≠ VStr "UnauthorizedError" →
  strict_equals v (VStr "UnauthorizedError") = false.
Proof.
  intros Hne. rewrite strict_equals_string. by apply bool_decide_eq_false.
Qed.

Lemma or_truthy (a b : value) : truthy b = true → truthy (or a b) = true.
Proof. intros Hb. unfold or. by destruct (truthy a) eqn:Ha. Qed.

Lemma table_own (k : string) (v : value) :
  Server.statusCodeByErrorName !! k = Some v →
  (k = "ValidationError" ∨ k = "CastError") ∧ v = VNum 400.
Proof.
  unfold Server.statusCodeByErrorName. intros Hk.
  destruct (decide (k = "ValidationError")) as [->|Hv].
  - rewrite lookup_insert_eq in Hk. naive_solver.
  - rewrite lookup_insert_ne in Hk by done.
    destruct (decide (k = "CastError")) as [->|Hc].
    + rewrite lookup_insert_eq in Hk. naive_solver.
    + rewrite lookup_insert_ne in Hk by done. by rewrite lookup_empty in Hk.
Qed.

Lemma settled_truthy (e : error_object) (k : string) :
  truthy (settled e k) = true.
Proof. unfold settled. by do 2 apply or_truthy. Qed.

Lemma settled_explicit (e : error_object) (k : string) :
  truthy (statusCode e) = true → settled e k = statusCode e.
Proof. unfold settled, or. by intros ->. Qed.

Lemma settled_own (e : error_object) (k : string) (v : value) :
  truthy (statusCode e) = false →
  Server.statusCodeByErrorName !! k = Some v →
  settled e k = v.
Proof.
  intros Hf Hk. unfold settled, or, get. rewrite Hf, Hk.
  by destruct (table_own _ _ Hk) as [_ ->].
Qed.

Lemma settled_default (e : error_object) (k : string) :
  truthy (statusCode e) = false →
  Server.statusCodeByErrorName !! k = None →
  Object_prototype k = None →
  settled e k = VNum 500.
Proof.
  intros Hf Hk Hp. unfold settled, or, get. by rewrite Hf, Hk, Hp.
Qed.

(** ** The two paths of the error handler in closed form *)

(** Unfolds the monad and the primitive effects down to state records. *)
Ltac unfold_M :=
  unfold errorHandler, propertyKey, assign_statusCode, log, the_logger,
    deref, put_heap, put_listeners, status, send, emit, modify, throw,
    mbind, M_bind, gets.

Lemma final_ended (written : bool) (s : state) : final (ended written s) = s.
Proof. by destruct written. Qed.

Lemma returns_ended (written : bool) (s : state) :
  returns (ended written s) = written.
Proof. by destruct written. Qed.

Lemma errorHandler_unauthorized (s : state) (err : loc) (e : error_object) :
  heap s !! err = Some e →
  name e = VStr "UnauthorizedError" →
  errorHandler err s =
    Return tt {| heap := heap s; req := req s; res_statusCode := VNum 401;
                 listeners := listeners s; now := now s;
                 out := out s ++ [Sent (VNum 401) (message e)] |}.
Proof.
  intros He Hn. unfold_M. simpl.
  rewrite He. simpl. rewrite Hn. reflexivity.
Qed.

Lemma errorHandler_explicit (s : state) (err : loc) (e : error_object)
    (lg : logger) :
  heap s !! err = Some e →
  name e ≠ VStr "UnauthorizedError" →
  req_logger (req s) = Some lg →
  truthy (statusCode e) = true →
  errorHandler err s =
    ended (valid_status (statusCode e))
      {| heap := heap s; req := req s;
         res_statusCode := statusCode e;
         listeners := listeners s; now := now s;
         out := out s ++
           [Logged (Entry (bindings lg) error (toString e)
                          (ErrorDetail err));
            Logged (Entry (bindings lg) verbose "Responding to client"
                          (Text (toString e)));
            Sent (statusCode e) (VStr (toString e))] |}.
Proof.
  intros He Hn Hl Ht.
  unfold_M. simpl.
  rewrite He. simpl. rewrite (not_unauthorized _ Hn), Ht. simpl.
  repeat (rewrite ?He, ?Hl; simpl).
  rewrite <- !app_assoc. unfold ended.
  by destruct (valid_status (statusCode e)).
Qed.

Lemma errorHandler_classified (s : state) (err : loc) (e : error_object)
    (lg : logger) (k : string) :
  heap s !! err = Some e →
  name e ≠ VStr "UnauthorizedError" →
  req_logger (req s) = Some lg →
  truthy (statusCode e) = false →
  toPropertyKey (heap s) (name e) = Some k →
  errorHandler err s =
    ended (valid_status (settled e k))
      {| heap := <[err := set_statusCode (settled e k) e]> (heap s);
         req := req s;
         res_statusCode := settled e k;
         listeners := listeners s; now := now s;
         out := out s ++
           [Assigned err (settled e k);
            Logged (Entry (bindings lg) error (toString e)
                          (ErrorDetail err));
            Logged (Entry (bindings lg) verbose "Responding to client"
                          (Text (toString e)));
            Sent (settled e k) (VStr (toString e))] |}.
Proof.
  intros He Hn Hl Hf Hk.
  assert (settled e k = or (get Server.statusCodeByErrorName k) (VNum 500))
    as Hs by (unfold settled, or at 1; by rewrite Hf).
  unfold_M. simpl.
  rewrite He. simpl. rewrite (not_unauthorized _ Hn), Hf. simpl.
  rewrite Hk. simpl. rewrite He. simpl.
  repeat (rewrite ?lookup_insert_eq, ?Hl; simpl).
  rewrite <- Hs. rewrite <- !app_assoc. unfold ended.
  by destruct (valid_status (settled e k)).
Qed.

Lemma errorPath_unauthorized (s : state) (err : loc) (e : error_object) :
  heap s !! err = Some e →
  name e = VStr "UnauthorizedError" →
  errorPath err s = [Sent (VNum 401) (message e)].
Proof.
  intros He Hn. unfold errorPath.
  rewrite (errorHandler_unauthorized s err e He Hn). simpl.
  apply drop_app_length.
Qed.

Lemma errorPath_explicit (s : state) (err : loc) (e : error_object)
    (lg : logger) :
  heap s !! err = Some e →
  name e ≠ VStr "UnauthorizedError" →
  req_logger (req s) = Some lg →
  truthy (statusCode e) = true →
  errorPath err s =
    [Logged (Entry (bindings lg) error (toString e) (ErrorDetail err));
     Logged (Entry (bindings lg) verbose "Responding to client"
                   (Text (toString e)));
     Sent (statusCode e) (VStr (toString e))].
Proof.
  intros He Hn Hl Ht. unfold errorPath.
  rewrite (errorHandler_explicit s err e lg He Hn Hl Ht), final_ended.
  simpl. apply drop_app_length.
Qed.

Lemma errorPath_classified (s : state) (err : loc) (e : error_object)
    (lg : logger) (k : string) :
  heap s !! err = Some e →
  name e ≠ VStr "UnauthorizedError" →
  req_logger (req s) = Some lg →
  truthy (statusCode e) = false →
  toPropertyKey (heap s) (name e) = Some k →
  errorPath err s =
    [Assigned err (settled e k);
     Logged (Entry (bindings lg) error (toString e) (ErrorDetail err));
     Logged (Entry (bindings lg) verbose "Responding to client"
                   (Text (toString e)));
     Sent (settled e k) (VStr (toString e))].
Proof.
  intros He Hn Hl Hf Hk. unfold errorPath.
  rewrite (errorHandler_classified s err e lg k He Hn Hl Hf Hk), final_ended.
  simpl. apply drop_app_length.
Qed.

(** Whatever the status code on the error object, the response of the
    generic path carries the settled code. *)
Lemma responses_generic (s : state) (err : loc) (e : error_object)
    (lg : logger) (k : string) :
  heap s !! err = Some e →
  name e ≠ VStr "UnauthorizedError" →
  req_logger (req s) = Some lg →
  toPropertyKey (heap s) (name e) = Some k →
  responses (errorPath err s) = [(settled e k, VStr (toString e))] ∧
  logged (errorPath err s) =
    [Entry (bindings lg) error (toString e) (ErrorDetail err);
     Entry (bindings lg) verbose "Responding to client" (Text (toString e))].
Proof.
  intros He Hn Hl Hk. destruct (truthy (statusCode e)) eqn:Ht.
  - rewrite (errorPath_explicit s err e lg He Hn Hl Ht).
    by rewrite (settled_explicit e k Ht).
  - by rewrite (errorPath_classified s err e lg k He Hn Hl Ht Hk).
Qed.

(** ** The paths that end in a throw *)

Lemma errorHandler_dangling (s : state) (err : loc) :
  heap s !! err = None →
  errorHandler err s = Throw (TypeError "dangling reference") s.
Proof. intros He. unfold_M. simpl. by rewrite He. Qed.

Lemma errorHandler_no_key (s : state) (err : loc) (e : error_object) :
  heap s !! err = Some e →
  name e ≠ VStr "UnauthorizedError" →
  truthy (statusCode e) = false →
  toPropertyKey (heap s) (name e) = None →
  errorHandler err s = Throw (TypeError "dangling reference") s.
Proof.
  intros He Hn Hf Hk. unfold_M. simpl.
  rewrite He. simpl. rewrite (not_unauthorized _ Hn), Hf. simpl.
  by rewrite Hk.
Qed.

Lemma errorHandler_explicit_no_logger (s : state) (err : loc)
    (e : error_object) :
  heap s !! err = Some e →
  name e ≠ VStr "UnauthorizedError" →
  req_logger (req s) = None →
  truthy (statusCode e) = true →
  errorHandler err s =
    Throw (TypeError "Cannot read properties of undefined") s.
Proof.
  intros He Hn Hl Ht. unfold_M. simpl.
  rewrite He. simpl. rewrite (not_unauthorized _ Hn), Ht. simpl.
  repeat (rewrite ?He, ?Hl; simpl). reflexivity.
Qed.

Lemma errorHandler_classified_no_logger (s : state) (err : loc)
    (e : error_object) (k : string) :
  heap s !! err = Some e →
  name e ≠ VStr "UnauthorizedError" →
  req_logger (req s) = None →
  truthy (statusCode e) = false →
  toPropertyKey (heap s) (name e) = Some k →
  errorHandler err s =
    Throw (TypeError "Cannot read properties of undefined")
      {| heap := <[err := set_statusCode (settled e k) e]> (heap s);
         req := req s; res_statusCode := res_statusCode s;
         listeners := listeners s; now := now s;
         out := (out s ++ [Assigned err (settled e k)])%list |}.
Proof.
  intros He Hn Hl Hf Hk.
  assert (settled e k = or (get Server.statusCodeByErrorName k) (VNum 500))
    as Hs by (unfold settled, or at 1; by rewrite Hf).
  unfold_M. simpl.
  rewrite He. simpl. rewrite (not_unauthorized _ Hn), Hf. simpl.
  rewrite Hk. simpl. rewrite He. simpl.
  repeat (rewrite ?lookup_insert_eq, ?Hl; simpl).
  by rewrite <- Hs.
Qed.

Lemma set_statusCode_same (e : error_object) :
  set_statusCode (statusCode e) e = e.
Proof. by destruct e. Qed.

(** Splits on the way the handler ends on [err] in [s] and rewrites the
    run by the closed form of that way. *)
Ltac handler_cases s err :=
  let e := fresh "e" in
  let lg := fresh "lg" in
  let k := fresh "k" in
  let He := fresh "He" in
  let Hn := fresh "Hn" in
  let Ht := fresh "Ht" in
  let Hl := fresh "Hl" in
  let Hk := fresh "Hk" in
  destruct (heap s !! err) as [e|] eqn:He;
  [ destruct (decide (name e = VStr "UnauthorizedError")) as [Hn|Hn];
    [ rewrite ?(errorHandler_unauthorized s err e He Hn)
    | destruct (truthy (statusCode e)) eqn:Ht;
      [ destruct (req_logger (req s)) as [lg|] eqn:Hl;
        [ rewrite ?(errorHandler_explicit s err e lg He Hn Hl Ht)
        | rewrite ?(errorHandler_explicit_no_logger s err e He Hn Hl Ht) ]
      | destruct (toPropertyKey (heap s) (name e)) as [k|] eqn:Hk;
        [ destruct (req_logger (req s)) as [lg|] eqn:Hl;
          [ rewrite ?(errorHandler_classified s err e lg k He Hn Hl Ht Hk)
          | rewrite
              ?(errorHandler_classified_no_logger s err e k He Hn Hl Ht Hk) ]
        | rewrite ?(errorHandler_no_key s err e He Hn Ht Hk) ] ] ]
  | rewrite ?(errorHandler_dangling s err He) ];
  rewrite ?final_ended, ?returns_ended;
  cbn [final returns heap req res_statusCode listeners now out].

(** What the handler adds to the output is what [errorPath] names. *)
Lemma errorHandler_out (s : state) (err : loc) :
  out (final (errorHandler err s)) = (out s ++ errorPath err s)%list.
Proof.
  unfold errorPath. handler_cases s err;
    rewrite ?drop_app_length, ?drop_all, ?app_nil_r; reflexivity.
Qed.

Lemma errorHandler_keeps_request (s : state) (err : loc) :
  req (final (errorHandler err s)) = req s ∧
  listeners (final (errorHandler err s)) = listeners s ∧
  now (final (errorHandler err s)) = now s.
Proof. by handler_cases s err. Qed.

(** The handler never logs at info level, with or without a logger. *)
Lemma errorPath_above_info (s : state) (err : loc) :
  Forall (λ x, entry_level x ≠ info) (logged (errorPath err s)).
Proof.
  unfold errorPath. handler_cases s err;
    rewrite ?drop_app_length, ?drop_all; by repeat constructor.
Qed.

Lemma responses_app (a b : list event) :
  responses (a ++ b) = (responses a ++ responses b)%list.
Proof. apply omap_app. Qed.

(** ** The route table *)

Lemma expressApp_layout (lg : logger) :
  expressApp (new_Server lg) =
    (_setupExpressMiddleware [] ++ route_table ++ _setupErrorHandler [])%list.
Proof. reflexivity. Qed.

(** Shows a prefix mounted with the handler group [r]. *)
Ltac mounted_with r :=
  exists r; split; [done | apply (bool_decide_unpack _); by vm_compute].

(** C1. In the stack the server composes, each of the prefixes /stats,
    /user, /role, /permission and /organization has the authorization gate
    immediately before its handler group, and no other prefix has; each of
    the prefixes /, /auth, /person, /notification, /person-request and
    /contributor is registered with its handler group and with no
    authorization gate at all; and these eleven are all the prefixes the
    stack has. *)
Theorem authorization_gating (lg : logger) :
  (∀ p : string, p ∈ guarded_prefixes →
     gated (expressApp (new_Server lg)) p) ∧
  (∀ p : string, gated (expressApp (new_Server lg)) p →
     p ∈ guarded_prefixes) ∧
  (∀ p : string, p ∈ unguarded_prefixes →
     (∃ r : middleware,
        is_router r = true ∧ (p, r) ∈ expressApp (new_Server lg)) ∧
     (p, authorization) ∉ expressApp (new_Server lg)) ∧
  (∀ p : string, p ∈ (expressApp (new_Server lg)).*1 →
     p ∈ guarded_prefixes ∨ p ∈ unguarded_prefixes).
Proof.
  split; [|split; [|split]].
  - intros p Hp. unfold guarded_prefixes in Hp.
    repeat (apply elem_of_cons in Hp as [-> | Hp]);
      try (by apply elem_of_nil in Hp);
      first
        [ by exists 7%nat, statsRouter
        | by exists 13%nat, userRouter
        | by exists 15%nat, roleRouter
        | by exists 17%nat, permissionRouter
        | by exists 19%nat, organizationRouter ].
  - intros p (i & r & Hi & _).
    apply (list_elem_of_lookup_2 _ i) in Hi. vm_compute in Hi.
    repeat (apply elem_of_cons in Hi as [Hi | Hi];
            [ try discriminate Hi; injection Hi as ->;
              apply (bool_decide_unpack _); by vm_compute | ]).
    by apply elem_of_nil in Hi.
  - intros p Hp. unfold unguarded_prefixes in Hp.
    repeat (apply elem_of_cons in Hp as [-> | Hp]);
      try (by apply elem_of_nil in Hp);
      (split;
       [ first
           [ mounted_with rootRouter | mounted_with authRouter
           | mounted_with personRouter | mounted_with notificationRouter
           | mounted_with personRequestRouter
           | mounted_with contributorRouter ]
       | apply (proj1 (bool_decide_eq_false _)); by vm_compute ]).
  - intros p Hp. vm_compute in Hp.
    repeat (apply elem_of_cons in Hp as [-> | Hp]);
      try (by apply elem_of_nil in Hp);
      first [ left; apply (bool_decide_unpack _); by vm_compute
            | right; apply (bool_decide_unpack _); by vm_compute ].
Qed.

(** ** The authorization path *)

(** C2. An error whose name is 'UnauthorizedError' is answered with status
    401 and [err.message] itself as the body; nothing is logged, [toString]
    plays no part, the error object is left as it was, and the handler
    returns normally in every state, also when [req.logger] is missing. *)
Theorem unauthorized_is_401 (s : state) (err : loc) (e : error_object) :
  heap s !! err = Some e →
  name e = VStr "UnauthorizedError" →
  returns (errorHandler err s) = true ∧
  errorPath err s = [Sent (VNum 401) (message e)] ∧
  res_statusCode (final (errorHandler err s)) = VNum 401 ∧
  heap (final (errorHandler err s)) = heap s.
Proof.
  intros He Hn. rewrite (errorPath_unauthorized s err e He Hn).
  by rewrite (errorHandler_unauthorized s err e He Hn).
Qed.

Lemma unauthorized_is_401_witness :
  let s := world (an_error (VStr "UnauthorizedError") VUndefined) None in
  req_logger (req s) = None ∧
  returns (errorHandler 0%nat s) = true ∧
  errorPath 0%nat s = [Sent (VNum 401) (VStr "boom")] ∧
  res_statusCode (final (errorHandler 0%nat s)) = VNum 401 ∧
  heap (final (errorHandler 0%nat s)) = heap s.
Proof.
  split; [reflexivity|].
  apply (unauthorized_is_401
           (world (an_error (VStr "UnauthorizedError") VUndefined) None)
           0%nat (an_error (VStr "UnauthorizedError") VUndefined));
    reflexivity.
Defined.

(** The generic path, by contrast, stops with a TypeError when the request
    has no scoped logger, after the status code was assigned and before
    anything is sent. *)
Lemma generic_path_needs_logger :
  let s := world (an_error (VStr "ValidationError") VUndefined) None in
  returns (errorHandler 0%nat s) = false ∧
  errorPath 0%nat s = [Assigned 0%nat (VNum 400)].
Proof. by vm_compute. Qed.

(** ** Status codes *)

(** Without a status code of its own, an error of kind 'ValidationError'
    or 'CastError' is answered with 400, and one whose kind is neither in
    the table nor inherited from [Object.prototype] with 500. *)
Lemma table_kinds_give_400 (s : state) (err : loc) (e : error_object)
    (lg : logger) (k : string) :
  heap s !! err = Some e →
  req_logger (req s) = Some lg →
  name e = VStr k →
  statusCode e = VUndefined →
  (k = "ValidationError" ∨ k = "CastError" →
     responses (errorPath err s) = [(VNum 400, VStr (toString e))]) ∧
  (k ≠ "UnauthorizedError" →
   Server.statusCodeByErrorName !! k = None → Object_prototype k = None →
     responses (errorPath err s) = [(VNum 500, VStr (toString e))]).
Proof.
  intros He Hl Hn Hc.
  assert (toPropertyKey (heap s) (name e) = Some k) as Hk by by rewrite Hn.
  assert (truthy (statusCode e) = false) as Hf by by rewrite Hc.
  split.
  - intros Hv.
    assert (name e ≠ VStr "UnauthorizedError") as Hne
      by (rewrite Hn; destruct Hv as [-> | ->]; discriminate).
    destruct (responses_generic s err e lg k He Hne Hl Hk) as [-> _].
    rewrite (settled_own e k (VNum 400)); [done | done |].
    by destruct Hv as [-> | ->].
  - intros Hu Hnone Hproto.
    assert (name e ≠ VStr "UnauthorizedError") as Hne
      by (rewrite Hn; congruence).
    destruct (responses_generic s err e lg k He Hne Hl Hk) as [-> _].
    by rewrite settled_default.
Qed.

Lemma table_kinds_give_400_witness :
  let e := an_error (VStr "CastError") VUndefined in
  let s := world e (Some base_logger) in
  ("CastError" = "ValidationError" ∨ "CastError" = "CastError" →
     responses (errorPath 0%nat s) = [(VNum 400, VStr "Error: boom")]) ∧
  ("CastError" ≠ "UnauthorizedError" →
   Server.statusCodeByErrorName !! "CastError" = None →
   Object_prototype "CastError" = None →
     responses (errorPath 0%nat s) = [(VNum 500, VStr "Error: boom")]).
Proof.
  apply (table_kinds_give_400
           (world (an_error (VStr "CastError") VUndefined) (Some base_logger))
           0%nat (an_error (VStr "CastError") VUndefined) base_logger
           "CastError"); reflexivity.
Defined.

(** ** The log records of the authorization path *)


(** ** Determinism *)

(** C8. Two errors that agree on their kind and on their status code get
    the same response status, whatever the requests, the heaps and the rest
    of the errors are; and handling the same error object a second time
    gives the same status again. *)
Theorem classifier_deterministic (s1 s2 : state) (l1 l2 : loc)
    (e1 e2 : error_object) (lg1 lg2 : logger) (k : string) :
  heap s1 !! l1 = Some e1 →
  heap s2 !! l2 = Some e2 →
  req_logger (req s1) = Some lg1 →
  req_logger (req s2) = Some lg2 →
  name e1 = name e2 →
  toPropertyKey (heap s1) (name e1) = Some k →
  toPropertyKey (heap s2) (name e2) = Some k →
  statusCode e1 = statusCode e2 →
  (responses (errorPath l1 s1)).*1 = (responses (errorPath l2 s2)).*1 ∧
  (responses (errorPath l1 (final (errorHandler l1 s1)))).*1 =
    (responses (errorPath l1 s1)).*1.
Proof.
  intros H1 H2 Hl1 Hl2 Hn Hk1 Hk2 Hc.
  destruct (decide (name e1 = VStr "UnauthorizedError")) as [Ha | Ha].
  - split.
    + rewrite (errorPath_unauthorized s1 l1 e1 H1 Ha).
      rewrite (errorPath_unauthorized s2 l2 e2 H2); [done | congruence].
    + rewrite (errorHandler_unauthorized s1 l1 e1 H1 Ha). simpl.
      by rewrite !(errorPath_unauthorized _ l1 e1).
  - assert (name e2 ≠ VStr "UnauthorizedError") as Ha2 by congruence.
    destruct (responses_generic s1 l1 e1 lg1 k H1 Ha Hl1 Hk1) as [Hr1 _].
    destruct (responses_generic s2 l2 e2 lg2 k H2 Ha2 Hl2 Hk2) as [Hr2 _].
    rewrite Hr1, Hr2. split.
    + simpl. unfold settled. by rewrite Hc.
    + destruct (truthy (statusCode e1)) eqn:Ht.
      * rewrite (errorHandler_explicit s1 l1 e1 lg1 H1 Ha Hl1 Ht), final_ended.
        erewrite errorPath_explicit; [|done..]. simpl.
        by rewrite (settled_explicit e1 k Ht).
      * rewrite (errorHandler_classified s1 l1 e1 lg1 k H1 Ha Hl1 Ht Hk1),
          final_ended.
        erewrite (errorPath_explicit _ l1 (set_statusCode (settled e1 k) e1));
          [done | by simpl; rewrite lookup_insert_eq | done | done |].
        apply settled_truthy.
Qed.

Lemma classifier_deterministic_witness :
  let s1 := world (an_error (VStr "ValidationError") VUndefined)
                  (Some base_logger) in
  let s2 := world {| name := VStr "ValidationError"; message := VStr "other";
                     statusCode := VUndefined; toString := "other" |}
                  (Some (child base_logger {["requestId" := "42"]})) in
  (responses (errorPath 0%nat s1)).*1 = (responses (errorPath 0%nat s2)).*1 ∧
  (responses (errorPath 0%nat (final (errorHandler 0%nat s1)))).*1 =
    (responses (errorPath 0%nat s1)).*1.
Proof.
  apply (classifier_deterministic
           (world (an_error (VStr "ValidationError") VUndefined)
                  (Some base_logger))
           (world {| name := VStr "ValidationError"; message := VStr "other";
                     statusCode := VUndefined; toString := "other" |}
                  (Some (child base_logger {["requestId" := "42"]})))
           0%nat 0%nat
           (an_error (VStr "ValidationError") VUndefined)
           {| name := VStr "ValidationError"; message := VStr "other";
              statusCode := VUndefined; toString := "other" |}
           base_logger (child base_logger {["requestId" := "42"]})
           "ValidationError"); reflexivity.
Defined.

(** ** The assignment to [err.statusCode] *)

(** C10. For an error that is not an authorization failure and has no
    status code of its own (none, or a falsy one), the handler stores the
    settled code in the [statusCode] field of that very object, leaving the
    rest of the heap alone; the object is no longer what it was; and the
    assignment comes first, before the two log calls and the response, which
    carries the same code. *)
Theorem statusCode_assigned_in_place (s : state) (err : loc)
    (e : error_object) (lg : logger) (k : string) :
  heap s !! err = Some e →
  name e ≠ VStr "UnauthorizedError" →
  truthy (statusCode e) = false →
  req_logger (req s) = Some lg →
  toPropertyKey (heap s) (name e) = Some k →
  ∃ code : value,
    truthy code = true ∧
    heap (final (errorHandler err s)) =
      <[err := set_statusCode code e]> (heap s) ∧
    heap (final (errorHandler err s)) !! err ≠ Some e ∧
    errorPath err s =
      [Assigned err code;
       Logged (Entry (bindings lg) error (toString e) (ErrorDetail err));
       Logged (Entry (bindings lg) verbose "Responding to client"
                     (Text (toString e)));
       Sent code (VStr (toString e))].
Proof.
  intros He Hn Hf Hl Hk. exists (settled e k).
  split; [apply settled_truthy|].
  rewrite (errorPath_classified s err e lg k He Hn Hl Hf Hk).
  rewrite (errorHandler_classified s err e lg k He Hn Hl Hf Hk), final_ended.
  simpl. split; [done|]. split; [|done].
  rewrite lookup_insert_eq. intros [= Heq].
  pose proof (settled_truthy e k) as Ht.
  assert (statusCode (set_statusCode (settled e k) e) = statusCode e) as Hs
    by by rewrite Heq.
  simpl in Hs. congruence.
Qed.

Lemma statusCode_assigned_in_place_witness :
  let e := an_error (VStr "ValidationError") VUndefined in
  let s := world e (Some base_logger) in
  ∃ code : value,
    truthy code = true ∧
    heap (final (errorHandler 0%nat s)) =
      <[0%nat := set_statusCode code e]> (heap s) ∧
    heap (final (errorHandler 0%nat s)) !! 0%nat ≠ Some e ∧
    errorPath 0%nat s =
      [Assigned 0%nat code;
       Logged (Entry ∅ error "Error: boom" (ErrorDetail 0%nat));
       Logged (Entry ∅ verbose "Responding to client" (Text "Error: boom"));
       Sent code (VStr "Error: boom")].
Proof.
  apply (statusCode_assigned_in_place
           (world (an_error (VStr "ValidationError") VUndefined)
                  (Some base_logger))
           0%nat (an_error (VStr "ValidationError") VUndefined) base_logger
           "ValidationError"); [reflexivity | discriminate | reflexivity..].
Defined.

(** ** The request lifecycle *)

Lemma createReqLogger_closed (this : logger) (s : state) :
  createReqLogger this s =
    Return tt {| heap := heap s; req := stamped this (req s) (now s);
                 res_statusCode := res_statusCode s;
                 listeners := (listeners s ++ [egress])%list; now := now s;
                 out := (out s ++ [Logged (ingress_entry this (req s))])%list |}.
Proof. reflexivity. Qed.

#[local] Arguments logged : simpl never.

Lemma logged_app (a b : list event) :
  logged (a ++ b) = (logged a ++ logged b)%list.
Proof. apply omap_app. Qed.

Lemma delivered_app (a b : list event) :
  delivered (a ++ b) = (delivered a ++ delivered b)%list.
Proof. apply omap_app. Qed.

(** ** The error on its way through Express *)

(** The final handler always returns; it changes the code on the response
    and adds its answer to the output, or does nothing, and that is all. *)
Lemma finalhandler_only_answers (s : state) :
  returns (finalhandler s) = true ∧
  heap (final (finalhandler s)) = heap s ∧
  req (final (finalhandler s)) = req s ∧
  listeners (final (finalhandler s)) = listeners s ∧
  now (final (finalhandler s)) = now s ∧
  logged (out (final (finalhandler s))) = logged (out s) ∧
  responses (out (final (finalhandler s))) = responses (out s) ∧
  ∃ evs : list event, out (final (finalhandler s)) = (out s ++ evs)%list.
Proof.
  unfold finalhandler. unfold_M. simpl.
  destruct (delivered (out s)); simpl; repeat split;
    rewrite ?logged_app, ?responses_app, ?app_nil_r; try done;
    first [ by eexists [_] | exists []; by rewrite app_nil_r ].
Qed.

(** With nothing written yet and a code on the response that is no valid
    status, the final handler answers 500. *)
Lemma finalhandler_answers_500 (s : state) :
  delivered (out s) = [] →
  valid_status (res_statusCode s) = false →
  finalhandler s =
    Return tt {| heap := heap s; req := req s; res_statusCode := VNum 500;
                 listeners := listeners s; now := now s;
                 out := (out s ++ [Finalized (VNum 500)])%list |}.
Proof.
  intros Hd Hv. unfold finalhandler. unfold_M. simpl. rewrite Hd.
  destruct (res_statusCode s) as [| |b|n| |x|f| |l]; try done.
  simpl in Hv.
  destruct ((400 <=? n) && (n <=? 599)) eqn:Hn; [|done].
  apply andb_true_iff in Hn as [H1 H2].
  apply Z.leb_le in H1, H2.
  apply andb_false_iff in Hv as [Hv | Hv]; apply Z.leb_gt in Hv; lia.
Qed.

Lemma dispatch_final (err : loc) (s : state) :
  final (dispatch_error err s) =
    if returns (errorHandler err s) then final (errorHandler err s)
    else final (finalhandler (final (errorHandler err s))).
Proof. unfold dispatch_error. by destruct (errorHandler err s). Qed.

(** Dispatching an error adds the events of the error handler and then, at
    most, the answer of the final handler. *)
Lemma dispatch_out (err : loc) (s : state) :
  ∃ evs : list event,
    out (final (dispatch_error err s)) =
      (out s ++ errorPath err s ++ evs)%list ∧
    logged evs = [] ∧ responses evs = [].
Proof.
  rewrite dispatch_final. destruct (returns (errorHandler err s)).
  - exists []. by rewrite app_nil_r, errorHandler_out.
  - destruct (finalhandler_only_answers (final (errorHandler err s)))
      as (_ & _ & _ & _ & _ & Hlg & Hrs & evs & Hout).
    exists evs. rewrite Hout, errorHandler_out, <- app_assoc.
    rewrite Hout, logged_app in Hlg. rewrite Hout, responses_app in Hrs.
    split; [done|]. split.
    + apply (f_equal length) in Hlg. rewrite length_app in Hlg.
      destruct (logged evs); [done | simpl in Hlg; lia].
    + apply (f_equal length) in Hrs. rewrite length_app in Hrs.
      destruct (responses evs); [done | simpl in Hrs; lia].
Qed.

Lemma dispatch_keeps_request (err : loc) (s : state) :
  heap (final (dispatch_error err s)) = heap (final (errorHandler err s)) ∧
  req (final (dispatch_error err s)) = req s ∧
  listeners (final (dispatch_error err s)) = listeners s ∧
  now (final (dispatch_error err s)) = now s.
Proof.
  rewrite dispatch_final.
  destruct (errorHandler_keeps_request s err) as (Hq & Hl & Hn).
  destruct (returns (errorHandler err s)); [done|].
  destruct (finalhandler_only_answers (final (errorHandler err s)))
    as (_ & -> & -> & -> & -> & _). done.
Qed.

(** Through the scoped logger [lg] the handler logs above info only. *)
Lemma errorPath_bound (s : state) (err : loc) (lg : logger) :
  req_logger (req s) = Some lg →
  Forall (λ x, entry_level x ≠ info ∧ entry_bindings x = bindings lg)
         (logged (errorPath err s)).
Proof.
  intros Hlg. unfold errorPath. handler_cases s err; simplify_eq;
    rewrite ?drop_app_length, ?drop_all; by repeat constructor.
Qed.

Section Invariant.

(** A request that went through [createReqLogger]: it has its scoped logger
    [lg] and its start time [t0]. *)
Context (r : request) (lg : logger) (t0 : Z).
Hypothesis has_logger : req_logger r = Some lg.
Hypothesis has_startTime : _startTime r = Some t0.

(** Entries above info, logged through [lg], leave the invariant alone. *)
Lemma settled_log_extend (fired : bool) (s s' : state) (es : list entry) :
  settled_log r lg fired s →
  (∃ u : string, req s' = rewritten u r) →
  listeners s' = listeners s →
  logged (out s') = (logged (out s) ++ es)%list →
  Forall (λ x, entry_level x ≠ info ∧ entry_bindings x = bindings lg) es →
  settled_log r lg fired s'.
Proof.
  intros (Hr & Hls & i & rest & Hlog & Hi & Hie & Hin & Heg & Hb)
         Hreq Hlis Hout Hes.
  split; [done|]. split; [congruence|].
  exists i, (rest ++ es)%list.
  assert (filter (λ x, is_ingress x = true) es = [] ∧
          filter (λ x, is_egress x = true) es = []) as [Hfi Hfe].
  { clear Hout. induction Hes as [|x es [Hx _] _ [IH1 IH2]]; [done|].
    assert (is_ingress x = false ∧ is_egress x = false) as [Hxi Hxe].
    { unfold is_ingress, is_egress.
      by rewrite (bool_decide_eq_false_2 _ Hx). }
    rewrite !filter_cons. rewrite !decide_False by congruence. done. }
  split; [by rewrite Hout, Hlog|]. split; [done|]. split; [done|].
  rewrite !filter_app, Hfi, Hfe, !app_nil_r.
  split; [done|]. split; [done|].
  rewrite app_comm_cons. apply Forall_app. split; [done|].
  eapply Forall_impl; [exact Hes|]. by intros x [_ ?].
Qed.

(** One step keeps the invariant; the stream ending fires the hook if it is
    still pending and finds nothing to fire otherwise. *)
Lemma exec_preserves (fired : bool) (st : step) (s : state) :
  settled_log r lg fired s →
  settled_log r lg (fired || is_end st) (final (exec st s)).
Proof.
  intros Hinv. pose proof Hinv as ([u Hr] & Hls & Hrest).
  destruct st as [u' | code body | err | | ms]; simpl;
    rewrite ?orb_false_r.
  - (* Express rewrites the url *)
    apply (settled_log_extend fired s _ []); try done.
    + exists u'. unfold_M. simpl. by rewrite Hr.
    + by rewrite app_nil_r.
  - (* a handler group answers *)
    apply (settled_log_extend fired s _ []); try done.
    + exists u. unfold_M. simpl.
      by destruct (valid_status code).
    + unfold_M. simpl. by destruct (valid_status code).
    + unfold_M. simpl. destruct (valid_status code); simpl;
        rewrite logged_app; reflexivity.
  - (* an error is dispatched *)
    assert (req_logger (req s) = Some lg) as Hl by by rewrite Hr.
    destruct (dispatch_keeps_request err s) as (_ & Hq & Hli & _).
    destruct (dispatch_out err s) as (evs & Ho & Hlg & _).
    apply (settled_log_extend fired s _ (logged (errorPath err s)));
      try done.
    + exists u. by rewrite Hq.
    + by rewrite Ho, !logged_app, Hlg, app_nil_r.
    + by apply errorPath_bound.
  - (* the response stream ends *)
    rewrite orb_true_r.
    destruct Hrest as (i & rest & Hlog & Hi & Hie & Hin & Heg & Hb).
    unfold stream_ends. unfold_M. simpl.
    rewrite Hls. destruct fired; simpl.
    + split; [by exists u|]. split; [done|]. by exists i, rest.
    + unfold_M. simpl.
      rewrite Hr. simpl. rewrite has_startTime. simpl.
      rewrite has_logger. simpl.
      split; [by exists u|]. split; [done|].
      eexists i, (rest ++ [_])%list. simpl. rewrite logged_app, Hlog.
      split; [done|]. split; [done|]. split; [done|].
      rewrite !filter_app, Hin, length_app, Heg. simpl.
      split; [done|]. split; [done|].
      rewrite app_comm_cons. apply Forall_app. split; [done|].
      by repeat constructor.
  - (* time passes *)
    apply (settled_log_extend fired s _ []); try done.
    + by exists u.
    + by rewrite app_nil_r.
Qed.

Lemma run_preserves (steps : list step) (fired : bool) (s : state) :
  settled_log r lg fired s →
  settled_log r lg (fired || existsb is_end steps) (run steps s).
Proof.
  revert fired s. induction steps as [|st steps IH]; intros fired s Hinv.
  - simpl. by rewrite orb_false_r.
  - simpl. rewrite orb_assoc. apply IH. by apply exec_preserves.
Qed.

End Invariant.

Lemma lifecycle_settled (srv : server) (h : gmap loc error_object)
    (r : request) (t : Z) (steps : list step) :
  settled_log
    (stamped (this_logger srv) r t)
    (child (this_logger srv) (requestId_context (headers r)))
    (existsb is_end steps)
    (lifecycle srv h r t steps).
Proof.
  unfold lifecycle. rewrite createReqLogger_closed.
  apply (run_preserves (stamped (this_logger srv) r t)
           (child (this_logger srv) (requestId_context (headers r)))
           t eq_refl eq_refl steps false).
  split; [by exists (url r)|]. split; [done|].
  eexists _, []. simpl. repeat split; try done.
  by repeat constructor.
Qed.



(** A failed request whose stream signals its end twice: ingress, the two
    records of the error handler, one egress entry with the final code. *)
Example lifecycle_of_a_failure :
  let e := an_error (VStr "ValidationError") VUndefined in
  let s := lifecycle (new_Server base_logger) {[ 0%nat := e ]}
             (GET "/person" ∅) 100
             [Fails 0%nat; Elapses 7; StreamEnds; StreamEnds] in
  (λ x, (entry_level x, entry_message x)) <$> logged (out s) =
    [(info, "Incoming request"); (error, "Error: boom");
     (verbose, "Responding to client"); (info, "Outgoing response")] ∧
  last (entry_meta <$> logged (out s)) =
    Some (OutgoingResponse "1.1" "GET" "/person" (VNum 400) 7).
Proof. by vm_compute. Qed.

(** ** The correlation identifier *)

(** C9.  The lifecycle middleware always attaches a scoped
    logger to the request.  When the x-request-id header is present and not
    empty its value is bound to [requestId] in the logger's context, on top
    of the server logger's context; when the header is absent or empty the
    context is the server logger's alone.  Every entry the request logs
    afterwards carries that context. *)
Theorem scoped_logger_requestId (srv : server) (h : gmap loc error_object)
    (r : request) (t : Z) (steps : list step) :
  ∃ lg : logger,
    req_logger (req (final (createReqLogger (this_logger srv)
                                            (arrival h r t)))) = Some lg ∧
    (∀ id : string,
       headers r !! "x-request-id" = Some id → id ≠ "" →
       bindings lg = <["requestId" := id]> (bindings (this_logger srv))) ∧
    (headers r !! "x-request-id" = None ∨
     headers r !! "x-request-id" = Some "" →
       bindings lg = bindings (this_logger srv)) ∧
    Forall (λ x, entry_bindings x = bindings lg)
           (logged (out (lifecycle srv h r t steps))).
Proof.
  exists (child (this_logger srv) (requestId_context (headers r))).
  split; [done|]. split; [|split].
  - intros id Hid Hne. simpl. unfold requestId_context. rewrite Hid. simpl.
    destruct (String.eqb_spec id "") as [->|_]; [done|]. simpl.
    by rewrite insert_union_singleton_l.
  - intros [Hid | Hid]; simpl; unfold requestId_context; rewrite Hid; simpl;
      by rewrite (left_id_L ∅ (∪)).
  - destruct (lifecycle_settled srv h r t steps)
      as (_ & _ & i & rest & -> & _ & _ & _ & _ & Hb). done.
Qed.

(** A header with an empty value carries no identifier: line 71 treats it
    as it treats a missing header. *)
Example empty_requestId_is_no_identifier :
  let r := GET "/" {[ "x-request-id" := "" ]} in
  let s := final (createReqLogger (this_logger (new_Server base_logger))
                                  (arrival ∅ r 0)) in
  headers r !! "x-request-id" = Some "" ∧
  (bindings <$> req_logger (req s)) = Some {[ "context" := "Server" ]}.
Proof. by vm_compute. Qed.

Example requestId_is_stamped :
  let r := GET "/" {[ "x-request-id" := "abc" ]} in
  let s := lifecycle (new_Server base_logger) ∅ r 0 [StreamEnds] in
  (λ x, entry_bindings x !! "requestId") <$> logged (out s) =
    [Some "abc"; Some "abc"].
Proof. by vm_compute. Qed.

(** * Further properties of the error handler *)

(** ** What the handler leaves alone *)

(** Whatever the state, and however the handler ends, also by a throw: of
    the heap it changes at most the [statusCode] field of the error it was
    given; the request object, the pending completion hooks and the clock
    are as before. *)
Theorem errorHandler_only_sets_statusCode (s : state) (err : loc) :
  (∀ l : loc, l ≠ err →
     heap (final (errorHandler err s)) !! l = heap s !! l) ∧
  (∀ e : error_object, heap s !! err = Some e →
     ∃ c : value,
       heap (final (errorHandler err s)) !! err = Some (set_statusCode c e)) ∧
  (heap s !! err = None → heap (final (errorHandler err s)) !! err = None) ∧
  req (final (errorHandler err s)) = req s ∧
  listeners (final (errorHandler err s)) = listeners s ∧
  now (final (errorHandler err s)) = now s.
Proof.
  handler_cases s err;
    (split; [intros l Hl'; by rewrite ?lookup_insert_ne|]);
    (split;
     [ intros e' [= <-];
       first [ exists (settled e k); by rewrite lookup_insert_eq
             | exists (statusCode e); by rewrite set_statusCode_same ]
     | ]);
    (split; [try done|]); try done.
Qed.

(** In every state the handler answers at most once, and never with a
    falsy status code: no [undefined], [null], 0 or empty string reaches
    [res.status]. *)
Theorem error_response_status_is_truthy (s : state) (err : loc) :
  (length (responses (errorPath err s)) ≤ 1)%nat ∧
  Forall (λ cb, truthy cb.1 = true) (responses (errorPath err s)).
Proof.
  unfold errorPath. handler_cases s err;
    rewrite ?drop_app_length, ?drop_all; simpl;
    (split; [lia|]); repeat constructor; simpl;
    try done; try apply settled_truthy.
Qed.

(** When the handler returns on an error that is not an authorization
    failure, the status code of the response, the code recorded on the
    response object and the [statusCode] the error object ends up with are
    one and the same value; the body is the error's [toString()]. *)
Theorem statusCode_matches_response (s : state) (err : loc)
    (e : error_object) :
  heap s !! err = Some e →
  name e ≠ VStr "UnauthorizedError" →
  returns (errorHandler err s) = true →
  ∃ c : value,
    responses (errorPath err s) = [(c, VStr (toString e))] ∧
    res_statusCode (final (errorHandler err s)) = c ∧
    heap (final (errorHandler err s)) !! err = Some (set_statusCode c e).
Proof.
  intros He' Hn' Hret. unfold errorPath. revert Hret.
  handler_cases s err; simplify_eq; try done; intros _;
    rewrite ?drop_app_length.
  - exists (statusCode e). by rewrite set_statusCode_same.
  - exists (settled e k). by rewrite lookup_insert_eq.
Qed.

Lemma statusCode_matches_response_witness :
  let e := an_error (VStr "CastError") VUndefined in
  let s := world e (Some base_logger) in
  ∃ c : value,
    responses (errorPath 0%nat s) = [(c, VStr "Error: boom")] ∧
    res_statusCode (final (errorHandler 0%nat s)) = c ∧
    heap (final (errorHandler 0%nat s)) !! 0%nat = Some (set_statusCode c e).
Proof.
  apply (statusCode_matches_response
           (world (an_error (VStr "CastError") VUndefined) (Some base_logger))
           0%nat (an_error (VStr "CastError") VUndefined));
    [reflexivity | discriminate | reflexivity].
Defined.

(** Without [req.logger] an error that is not an authorization failure
    makes the handler throw: nothing is logged and nothing is sent, but the
    error object already carries the settled status code, since line 129
    runs before the first log call. *)
Theorem generic_path_without_logger (s : state) (err : loc)
    (e : error_object) (k : string) :
  heap s !! err = Some e →
  name e ≠ VStr "UnauthorizedError" →
  req_logger (req s) = None →
  toPropertyKey (heap s) (name e) = Some k →
  returns (errorHandler err s) = false ∧
  responses (errorPath err s) = [] ∧
  logged (errorPath err s) = [] ∧
  heap (final (errorHandler err s)) !! err =
    Some (set_statusCode (settled e k) e).
Proof.
  intros He' Hn' Hl' Hk'. unfold errorPath.
  handler_cases s err; simplify_eq;
    rewrite ?drop_app_length, ?drop_all.
  - rewrite (settled_explicit e k Ht), set_statusCode_same. done.
  - by rewrite lookup_insert_eq.
Qed.

Lemma generic_path_without_logger_witness :
  let e := an_error (VStr "ValidationError") VUndefined in
  let s := world e None in
  returns (errorHandler 0%nat s) = false ∧
  responses (errorPath 0%nat s) = [] ∧
  logged (errorPath 0%nat s) = [] ∧
  heap (final (errorHandler 0%nat s)) !! 0%nat =
    Some (set_statusCode (settled e "ValidationError") e).
Proof.
  apply (generic_path_without_logger
           (world (an_error (VStr "ValidationError") VUndefined) None)
           0%nat (an_error (VStr "ValidationError") VUndefined)
           "ValidationError"); [reflexivity | discriminate | reflexivity..].
Defined.

(** * Further properties of the request lifecycle *)

(** A completion hook only logs: the heap, the request, the response code
    and the clock stay, and no response is written, whether it returns or
    throws. *)
Lemma fire_only_logs (l : listener) (s : state) :
  heap (final (fire l s)) = heap s ∧
  req (final (fire l s)) = req s ∧
  res_statusCode (final (fire l s)) = res_statusCode s ∧
  listeners (final (fire l s)) = listeners s ∧
  now (final (fire l s)) = now s ∧
  responses (out (final (fire l s))) = responses (out s) ∧
  delivered (out (final (fire l s))) = delivered (out s).
Proof.
  destruct l. unfold fire. unfold_M. simpl.
  destruct (_startTime (req s)); simpl;
    destruct (req_logger (req s)); simpl; repeat split;
    by rewrite ?responses_app, ?delivered_app, ?app_nil_r.
Qed.

Lemma fire_all_only_logs (ls : list listener) (s : state) :
  heap (final (fire_all ls s)) = heap s ∧
  req (final (fire_all ls s)) = req s ∧
  res_statusCode (final (fire_all ls s)) = res_statusCode s ∧
  listeners (final (fire_all ls s)) = listeners s ∧
  now (final (fire_all ls s)) = now s ∧
  responses (out (final (fire_all ls s))) = responses (out s) ∧
  delivered (out (final (fire_all ls s))) = delivered (out s).
Proof.
  revert s. induction ls as [|l ls IH]; intros s; [done|].
  simpl. unfold mbind, M_bind.
  pose proof (fire_only_logs l s) as Hf.
  destruct (fire l s) as [[] s1 | x s1]; simpl in *; [|done].
  destruct (IH s1) as (? & ? & ? & ? & ? & ? & ?).
  destruct Hf as (? & ? & ? & ? & ? & ? & ?).
  repeat split; congruence.
Qed.

Lemma stream_ends_only_logs (s : state) :
  heap (final (stream_ends s)) = heap s ∧
  req (final (stream_ends s)) = req s ∧
  res_statusCode (final (stream_ends s)) = res_statusCode s ∧
  listeners (final (stream_ends s)) = [] ∧
  now (final (stream_ends s)) = now s ∧
  responses (out (final (stream_ends s))) = responses (out s) ∧
  delivered (out (final (stream_ends s))) = delivered (out s).
Proof.
  unfold stream_ends. unfold_M. simpl.
  by destruct (fire_all_only_logs (listeners s)
       {| heap := heap s; req := req s; res_statusCode := res_statusCode s;
          listeners := []; now := now s; out := out s |})
    as (? & ? & ? & ? & ? & ? & ?).
Qed.

(** Only time passing moves the clock. *)
Lemma run_now (steps : list step) (s : state) :
  now (run steps s) = now s + elapsed steps.
Proof.
  revert s. induction steps as [|st steps IH]; intros s; simpl; [lia|].
  fold (run steps (final (exec st s))). rewrite IH.
  destruct st as [u | code body | err | | ms]; simpl.
  - unfold_M. simpl. lia.
  - unfold_M. simpl. destruct (valid_status code); simpl; lia.
  - destruct (dispatch_keeps_request err s) as (_ & _ & _ & ->). lia.
  - destruct (stream_ends_only_logs s) as (_ & _ & _ & _ & -> & _). lia.
  - lia.
Qed.

Lemma run_app (a b : list step) (s : state) :
  run (a ++ b) s = run b (run a s).
Proof. apply foldl_app. Qed.

(** Once the hooks are gone no step brings one back, and no further egress
    entry is logged. *)
Lemma run_after_fired (steps : list step) (s : state) :
  listeners s = [] →
  listeners (run steps s) = [] ∧
  filter (λ x, is_egress x = true) (logged (out (run steps s))) =
    filter (λ x, is_egress x = true) (logged (out s)).
Proof.
  revert s. induction steps as [|st steps IH]; intros s Hls; [done|].
  simpl. fold (run steps (final (exec st s))).
  assert (listeners (final (exec st s)) = [] ∧
          filter (λ x, is_egress x = true) (logged (out (final (exec st s)))) =
            filter (λ x, is_egress x = true) (logged (out s))) as [Hl1 Hf1].
  { destruct st as [u | code body | err | | ms]; simpl.
    - done.
    - unfold_M. simpl. destruct (valid_status code); simpl;
        (split; [done|]); by rewrite logged_app, filter_app, app_nil_r.
    - destruct (dispatch_keeps_request err s) as (_ & _ & -> & _).
      split; [done|].
      destruct (dispatch_out err s) as (evs & -> & Hlg & _).
      rewrite !logged_app, Hlg, app_nil_r, filter_app.
      pose proof (errorPath_above_info s err) as Hq.
      induction Hq as [|x xs Hx _ IHq]; [by rewrite app_nil_r|].
      rewrite filter_cons, decide_False; [done|].
      unfold is_egress. by rewrite (bool_decide_eq_false_2 _ Hx).
    - unfold stream_ends. unfold_M. simpl. by rewrite Hls.
    - done. }
  destruct (IH _ Hl1) as [-> ->]. done.
Qed.

(** The egress entry tells the truth about the request.  When the response
    stream ends for the first time, after the steps [pre], the one egress
    entry of the request carries what the request object and the response
    object hold at that moment: the url as Express last rewrote it, the
    status code last set on the response (500 once the final handler took
    over), and, with them, the time that passed since the lifecycle
    middleware ran.  Protocol version, method and headers are those of the
    arrival, and nothing that happens afterwards adds or alters an egress
    entry. *)
Theorem egress_reports_final_status (srv : server)
    (h : gmap loc error_object) (r : request) (t : Z)
    (pre post : list step) :
  StreamEnds ∉ pre →
  filter (λ x, is_egress x = true)
         (logged (out (lifecycle srv h r t (pre ++ StreamEnds :: post)))) =
    [egress_entry (this_logger srv) (req (lifecycle srv h r t pre))
       (res_statusCode (lifecycle srv h r t pre)) (elapsed pre)] ∧
  httpVersion (req (lifecycle srv h r t pre)) = httpVersion r ∧
  method (req (lifecycle srv h r t pre)) = method r ∧
  headers (req (lifecycle srv h r t pre)) = headers r.
Proof.
  intros Hpre. unfold lifecycle.
  set (s0 := final (createReqLogger (this_logger srv) (arrival h r t))).
  rewrite run_app.
  change (run (StreamEnds :: post) (run pre s0))
    with (run post (final (stream_ends (run pre s0)))).
  assert (existsb is_end pre = false) as Hno.
  { apply not_true_is_false. intros Hex.
    apply existsb_exists in Hex as (st & Hin & Hst).
    destruct st; try done. by apply Hpre, list_elem_of_In. }
  pose proof (lifecycle_settled srv h r t pre) as Hinv.
  unfold lifecycle in Hinv. fold s0 in Hinv. rewrite Hno in Hinv.
  destruct Hinv as ([u Hr] & Hls & i & rest & Hlog & _ & Hie & _ & Heg & _).
  pose proof (run_now pre s0) as Hnow.
  apply length_zero_iff_nil in Heg.
  split; [|by rewrite Hr].
  destruct (run_after_fired post (final (stream_ends (run pre s0))))
    as [_ ->].
  { by destruct (stream_ends_only_logs (run pre s0)) as (_ & _ & _ & ? & _). }
  unfold stream_ends. unfold_M. simpl. rewrite Hls. simpl.
  unfold fire. unfold_M. simpl. rewrite Hr. simpl.
  rewrite logged_app, Hlog, filter_app, filter_cons, Heg.
  rewrite decide_False by by rewrite Hie.
  replace (now (run pre s0) - t) with (elapsed pre)
    by (rewrite Hnow; subst s0; simpl; lia).
  reflexivity.
Qed.

Lemma egress_reports_final_status_witness :
  let e := an_error (VStr "toString") VUndefined in
  let srv := new_Server base_logger in
  let r := GET "/person/ok" ∅ in
  let pre := [Rewrites "/ok"; Elapses 3; Rewrites "/person/ok";
              Fails 0%nat; Elapses 4] in
  let s1 := lifecycle srv {[ 0%nat := e ]} r 100 pre in
  (res_statusCode s1 = VNum 500 ∧ url (req s1) = "/person/ok") ∧
  filter (λ x, is_egress x = true)
         (logged (out (lifecycle srv {[ 0%nat := e ]} r 100
                         (pre ++ StreamEnds :: [Answers (VNum 200) VNull;
                                                StreamEnds])))) =
    [egress_entry (this_logger srv) (req s1) (res_statusCode s1)
       (elapsed pre)] ∧
  httpVersion (req s1) = httpVersion r ∧
  method (req s1) = method r ∧
  headers (req s1) = headers r.
Proof.
  split; [by vm_compute|].
  apply (egress_reports_final_status (new_Server base_logger)
           {[ 0%nat := an_error (VStr "toString") VUndefined ]}
           (GET "/person/ok" ∅) 100
           [Rewrites "/ok"; Elapses 3; Rewrites "/person/ok";
            Fails 0%nat; Elapses 4]
           [Answers (VNum 200) VNull; StreamEnds]).
  intros Hin. by repeat (apply elem_of_cons in Hin as [? | Hin]; [done|]);
    apply elem_of_nil in Hin.
Defined.

(** ** The log only grows *)

Lemma fire_all_appends (ls : list listener) (s : state) :
  ∃ evs : list event, out (final (fire_all ls s)) = (out s ++ evs)%list.
Proof.
  revert s. induction ls as [|l ls IH]; intros s.
  { exists []. simpl. by rewrite app_nil_r. }
  simpl. unfold mbind, M_bind.
  assert (∃ evs, out (final (fire l s)) = (out s ++ evs)%list) as [e1 H1].
  { destruct l. unfold fire. unfold_M. simpl.
    destruct (_startTime (req s)); simpl;
      destruct (req_logger (req s)); simpl;
      first [ by eexists [_] | exists []; by rewrite app_nil_r ]. }
  destruct (fire l s) as [[] s1 | x s1]; simpl in *; [|by exists e1].
  destruct (IH s1) as [e2 H2]. exists (e1 ++ e2)%list.
  by rewrite H2, H1, app_assoc.
Qed.

Lemma run_appends (steps : list step) (s : state) :
  ∃ evs : list event, out (run steps s) = (out s ++ evs)%list.
Proof.
  revert s. induction steps as [|st steps IH]; intros s.
  { exists []. simpl. by rewrite app_nil_r. }
  change (run (st :: steps) s) with (run steps (final (exec st s))).
  destruct (IH (final (exec st s))) as [e2 H2].
  assert (∃ evs, out (final (exec st s)) = (out s ++ evs)%list) as [e1 H1].
  { destruct st as [u | code body | err | | ms]; simpl.
    - exists []. unfold_M. simpl. by rewrite app_nil_r.
    - unfold_M. simpl. destruct (valid_status code); by eexists [_].
    - destruct (dispatch_out err s) as (evs & -> & _). by eexists.
    - unfold stream_ends. unfold_M. simpl.
      apply (fire_all_appends (listeners s)
               {| heap := heap s; req := req s;
                  res_statusCode := res_statusCode s; listeners := [];
                  now := now s; out := out s |}).
    - exists []. by rewrite app_nil_r. }
  exists (e1 ++ e2)%list. by rewrite H2, H1, app_assoc.
Qed.

(** Whatever happens to the request later, the first entry of its log is
    the ingress entry made on arrival: at info level, stamped with the
    scoped logger's context, and carrying the request's protocol version,
    method and url and all of its headers and trailers as they came, so
    that every header of the request can be read off the log with its
    value. *)
Theorem ingress_entry_is_first (srv : server) (h : gmap loc error_object)
    (r : request) (t : Z) (steps : list step) :
  head (logged (out (lifecycle srv h r t steps))) =
    Some (ingress_entry (this_logger srv) r) ∧
  entry_meta (ingress_entry (this_logger srv) r) =
    IncomingRequest (httpVersion r) (method r) (url r)
                    (headers r) (trailers r).
Proof.
  split; [|done]. unfold lifecycle. rewrite createReqLogger_closed.
  destruct (run_appends steps
              (final (Return ()
                 {| heap := heap (arrival h r t);
                    req := stamped (this_logger srv) (req (arrival h r t))
                                   (now (arrival h r t));
                    res_statusCode := res_statusCode (arrival h r t);
                    listeners := (listeners (arrival h r t) ++ [egress])%list;
                    now := now (arrival h r t);
                    out := (out (arrival h r t) ++
                            [Logged (ingress_entry (this_logger srv)
                                       (req (arrival h r t)))])%list |})))
    as [evs ->].
  reflexivity.
Qed.

(** ** Logging does not reach the client *)

(** On two requests with their scoped loggers, the same heap and the same
    code on the response object, the handler makes the same change to the
    heap, sends the same response and ends the same way. *)
Lemma errorHandler_agree (s1 s2 : state) (err : loc) (lg1 lg2 : logger) :
  heap s1 = heap s2 →
  res_statusCode s1 = res_statusCode s2 →
  req_logger (req s1) = Some lg1 →
  req_logger (req s2) = Some lg2 →
  heap (final (errorHandler err s1)) = heap (final (errorHandler err s2)) ∧
  res_statusCode (final (errorHandler err s1)) =
    res_statusCode (final (errorHandler err s2)) ∧
  responses (errorPath err s1) = responses (errorPath err s2) ∧
  delivered (errorPath err s1) = delivered (errorPath err s2) ∧
  returns (errorHandler err s1) = returns (errorHandler err s2).
Proof.
  intros Hh Hc Hl1 Hl2. unfold errorPath.
  destruct (heap s1 !! err) as [e|] eqn:He1.
  - assert (heap s2 !! err = Some e) as He2 by by rewrite <- Hh.
    destruct (decide (name e = VStr "UnauthorizedError")) as [Hn|Hn].
    { rewrite (errorHandler_unauthorized s1 err e He1 Hn),
        (errorHandler_unauthorized s2 err e He2 Hn). simpl.
      by rewrite !drop_app_length. }
    destruct (truthy (statusCode e)) eqn:Ht.
    { rewrite (errorHandler_explicit s1 err e lg1 He1 Hn Hl1 Ht),
        (errorHandler_explicit s2 err e lg2 He2 Hn Hl2 Ht).
      rewrite !final_ended, !returns_ended. simpl.
      by rewrite !drop_app_length. }
    destruct (toPropertyKey (heap s1) (name e)) as [k|] eqn:Hk1.
    + assert (toPropertyKey (heap s2) (name e) = Some k) as Hk2
        by by rewrite <- Hh.
      rewrite (errorHandler_classified s1 err e lg1 k He1 Hn Hl1 Ht Hk1),
        (errorHandler_classified s2 err e lg2 k He2 Hn Hl2 Ht Hk2).
      rewrite !final_ended, !returns_ended. simpl.
      by rewrite !drop_app_length, Hh.
    + assert (toPropertyKey (heap s2) (name e) = None) as Hk2
        by by rewrite <- Hh.
      rewrite (errorHandler_no_key s1 err e He1 Hn Ht Hk1),
        (errorHandler_no_key s2 err e He2 Hn Ht Hk2). simpl.
      by rewrite !drop_all.
  - assert (heap s2 !! err = None) as He2 by by rewrite <- Hh.
    rewrite (errorHandler_dangling s1 err He1),
      (errorHandler_dangling s2 err He2). simpl.
    by rewrite !drop_all.
Qed.

(** The final handler looks at the code on the response and at what was
    written, and at nothing else. *)
Lemma finalhandler_agree (s1 s2 : state) :
  heap s1 = heap s2 →
  res_statusCode s1 = res_statusCode s2 →
  delivered (out s1) = delivered (out s2) →
  heap (final (finalhandler s1)) = heap (final (finalhandler s2)) ∧
  res_statusCode (final (finalhandler s1)) =
    res_statusCode (final (finalhandler s2)) ∧
  delivered (out (final (finalhandler s1))) =
    delivered (out (final (finalhandler s2))).
Proof.
  intros Hh Hc Hd. unfold finalhandler. unfold_M. simpl.
  rewrite Hc, Hd. destruct (delivered (out s2)) eqn:Hd2; simpl.
  - by rewrite !delivered_app, Hd, Hd2.
  - by rewrite Hd, Hd2.
Qed.

(** One run with all its steps, another with only the steps that work on
    the response: heap, response code, [send] calls and written responses
    stay in step. *)
Lemma run_without_logging (steps : list step) (s1 s2 : state) :
  heap s1 = heap s2 →
  res_statusCode s1 = res_statusCode s2 →
  responses (out s1) = responses (out s2) →
  delivered (out s1) = delivered (out s2) →
  is_Some (req_logger (req s1)) →
  is_Some (req_logger (req s2)) →
  heap (run steps s1) =
    heap (run (filter (λ st, answers_or_fails st = true) steps) s2) ∧
  res_statusCode (run steps s1) =
    res_statusCode
      (run (filter (λ st, answers_or_fails st = true) steps) s2) ∧
  responses (out (run steps s1)) =
    responses
      (out (run (filter (λ st, answers_or_fails st = true) steps) s2)) ∧
  delivered (out (run steps s1)) =
    delivered
      (out (run (filter (λ st, answers_or_fails st = true) steps) s2)).
Proof.
  revert s1 s2. induction steps as [|st steps IH];
    intros s1 s2 Hh Hc Hr Hd Hl1 Hl2; [done|].
  change (run (st :: steps) s1) with (run steps (final (exec st s1))).
  destruct st as [u | code body | err | | ms].
  - rewrite filter_cons, decide_False by done. by apply IH.
  - rewrite filter_cons, decide_True by done.
    change (run (?x :: ?l) s2) with (run l (final (exec x s2))).
    unfold exec. unfold_M. simpl.
    destruct (valid_status code) eqn:Hv; simpl;
      (apply IH; simpl; try done;
       [ by rewrite !responses_app, Hr
       | by rewrite !delivered_app, Hd ]).
  - rewrite filter_cons, decide_True by done.
    change (run (?x :: ?l) s2) with (run l (final (exec x s2))). simpl.
    destruct Hl1 as [lg1 Hl1], Hl2 as [lg2 Hl2].
    destruct (errorHandler_agree s1 s2 err lg1 lg2 Hh Hc Hl1 Hl2)
      as (Hh' & Hc' & Hr' & Hd' & Hret).
    destruct (dispatch_keeps_request err s1) as (_ & Hq1 & _).
    destruct (dispatch_keeps_request err s2) as (_ & Hq2 & _).
    destruct (dispatch_out err s1) as (ev1 & Ho1 & _ & Hr1).
    destruct (dispatch_out err s2) as (ev2 & Ho2 & _ & Hr2).
    assert (delivered (out (final (errorHandler err s1))) =
            delivered (out (final (errorHandler err s2)))) as Hde
      by by rewrite !errorHandler_out, !delivered_app, Hd, Hd'.
    apply IH.
    + rewrite !dispatch_final, <- Hret.
      destruct (returns (errorHandler err s1)); [done|].
      by apply finalhandler_agree.
    + rewrite !dispatch_final, <- Hret.
      destruct (returns (errorHandler err s1)); [done|].
      by apply finalhandler_agree.
    + by rewrite Ho1, Ho2, !responses_app, Hr, Hr', Hr1, Hr2.
    + rewrite !dispatch_final, <- Hret.
      destruct (returns (errorHandler err s1)); [done|].
      by apply finalhandler_agree.
    + by rewrite Hq1, Hl1.
    + by rewrite Hq2, Hl2.
  - rewrite filter_cons, decide_False by done. simpl.
    destruct (stream_ends_only_logs s1)
      as (Hh' & Hq & Hc' & _ & _ & Hr' & Hd').
    apply IH; congruence.
  - rewrite filter_cons, decide_False by done. by apply IH.
Qed.

(** What the client is sent, and what becomes of the error objects, depends
    on the steps in which a handler group answers or the error handler
    runs, and on nothing else: not on the request's headers (so not on its
    correlation identifier), not on the server's logger, not on the time of
    arrival, not on when or how often the response stream ends, not on the
    time that passes. *)
Theorem responses_do_not_depend_on_logging (srv srv' : server)
    (h : gmap loc error_object) (r r' : request) (t t' : Z)
    (steps : list step) :
  responses (out (lifecycle srv h r t steps)) =
    responses (out (lifecycle srv' h r' t'
                      (filter (λ st, answers_or_fails st = true) steps))) ∧
  heap (lifecycle srv h r t steps) =
    heap (lifecycle srv' h r' t'
            (filter (λ st, answers_or_fails st = true) steps)).
Proof.
  unfold lifecycle. rewrite !createReqLogger_closed.
  edestruct (run_without_logging steps) as (Hh & _ & Hr & _);
    [| | | | | | split; [exact Hr | exact Hh]]; simpl; try done.
Qed.

(** ** The order of the pipeline *)

(** The stack the constructor composes is in pipeline order: lifecycle
    logging first, then CORS, the raw and the JSON body parser and the REST
    conventions, then the routes with their gates, the error handler last.
    Every layer but the gate is mounted, and mounted once; the gate is
    mounted five times, each time immediately before a handler group and
    under the same prefix; and no two handler groups share a prefix. *)
Theorem pipeline_order (lg : logger) :
  StronglySorted (λ a b, (phase a.2 ≤ phase b.2)%nat)
                 (expressApp (new_Server lg)) ∧
  (∀ m : middleware, m ≠ authorization →
     length (filter (λ l, l.2 = m) (expressApp (new_Server lg))) = 1%nat) ∧
  length (filter (λ l, l.2 = authorization) (expressApp (new_Server lg))) =
    5%nat ∧
  (∀ (i : nat) (p : string),
     expressApp (new_Server lg) !! i = Some (p, authorization) →
     ∃ r : middleware,
       is_router r = true ∧
       expressApp (new_Server lg) !! S i = Some (p, r)) ∧
  NoDup (filter (λ l, is_router l.2 = true) (expressApp (new_Server lg))).*1.
Proof.
  split; [|split; [|split; [|split]]].
  - repeat (constructor; [|repeat constructor; simpl; lia]). constructor.
  - intros m Hm. destruct m; try done; by vm_compute.
  - by vm_compute.
  - intros i p Hi.
    do 22 (destruct i as [|i];
           [ first [ discriminate Hi
                   | injection Hi as <-; eexists;
                     split; [|reflexivity]; done ] | ]).
    discriminate Hi.
  - apply (bool_decide_unpack _). by vm_compute.
Qed.

(** * Properties of the promisifying loop *)

Section PromisifyFacts.

Context {module : Type}.
Variable promisifyAll : module → option module.
Variable resolve : gmap string loc.

#[local] Abbreviation one := (Promisify.promisifyOne promisifyAll resolve).
#[local] Abbreviation all :=
  (Promisify.promisifyModules promisifyAll resolve).

(** The loop over a concatenation is the loop over the first part followed,
    unless that threw, by the loop over the second. *)
Lemma promisifyModules_app (a b : list string) (store : gmap loc module) :
  all (a ++ b)%list store =
    match all a store with
    | (store', None) => all b store'
    | (store', Some f) => (store', Some f)
    end.
Proof.
  revert store. induction a as [|n a IH]; intros store; simpl.
  - reflexivity.
  - destruct (one n store) as [store'|f]; [apply IH | reflexivity].
Qed.

(** One module is rewritten at its own place and nowhere else. *)
Lemma promisifyOne_inl (n : string) (store store' : gmap loc module) :
  one n store = inl store' →
  ∃ (l : loc) (m m' : module),
    resolve !! n = Some l ∧ store !! l = Some m ∧
    promisifyAll m = Some m' ∧ store' = <[l := m']> store.
Proof.
  unfold Promisify.promisifyOne. intros Hone.
  destruct (resolve !! n) as [l|]; [|done].
  destruct (store !! l) as [m|] eqn:Hm; [|done].
  destruct (promisifyAll m) as [m'|] eqn:Hp; [|done].
  exists l, m, m'. by simplify_eq.
Qed.

(** The first module that cannot be loaded or promisified ends the call
    with its exception: the modules listed before it have been promisified
    and stay so, and what is listed after it plays no part. *)
Theorem promisify_stops_at_first_failure (pre post : list string)
    (n : string) (store store1 : gmap loc module) (f : Promisify.failure) :
  all pre store = (store1, None) →
  one n store1 = inr f →
  all (pre ++ n :: post)%list store = (store1, Some f).
Proof.
  intros Hpre Hn. rewrite promisifyModules_app, Hpre. simpl. by rewrite Hn.
Qed.

(** When the call returns and the listed names load pairwise distinct
    objects, the store it leaves is fully determined: each of these objects
    is exactly what [promisifyAll] made of it, once, and every other object
    is as it was. *)
Theorem promisify_success (names : list string)
    (store store' : gmap loc module) :
  NoDup (omap (λ n, resolve !! n) names) →
  all names store = (store', None) →
  (∀ (n : string) (l : loc),
     n ∈ names → resolve !! n = Some l →
     ∃ m m' : module,
       store !! l = Some m ∧ promisifyAll m = Some m' ∧
       store' !! l = Some m') ∧
  (∀ l : loc, l ∉ omap (λ n, resolve !! n) names →
     store' !! l = store !! l).
Proof.
  revert store. induction names as [|n0 names IH]; intros store Hnd Hall.
  { simpl in Hall. simplify_eq. split; [|done].
    intros n l Hin. by apply elem_of_nil in Hin. }
  simpl in Hall. destruct (one n0 store) as [store1|f] eqn:Hone; [|done].
  apply promisifyOne_inl in Hone as (l0 & m0 & m0' & Hr0 & Hm0 & Hp0 & ->).
  simpl in Hnd. rewrite Hr0 in Hnd. apply NoDup_cons in Hnd as [Hl0 Hnd].
  destruct (IH _ Hnd Hall) as [IHin IHout]. split.
  - intros n l Hin Hres. destruct (decide (l = l0)) as [->|Hne].
    + exists m0, m0'. repeat split; try done.
      by rewrite (IHout l0 Hl0), lookup_insert_eq.
    + apply elem_of_cons in Hin as [-> | Hin]; [congruence|].
      destruct (IHin n l Hin Hres) as (m & m' & Hm & Hp & Hs).
      exists m, m'. rewrite lookup_insert_ne in Hm by done. done.
  - intros l Hl. simpl in Hl. rewrite Hr0 in Hl.
    apply not_elem_of_cons in Hl as [Hne Hl].
    rewrite (IHout l Hl). by apply lookup_insert_ne.
Qed.

End PromisifyFacts.

Lemma promisify_stops_at_first_failure_witness :
  Promisify.promisifyModules Promisify.sample_promisifyAll
    Promisify.sample_resolve (["fs"] ++ "mongo" :: ["redis"])%list
    Promisify.sample_store =
    (<[0%nat := ["readFile"; "readFileAsync"]]> Promisify.sample_store,
     Some (Promisify.CannotFindModule "mongo")).
Proof.
  apply (promisify_stops_at_first_failure Promisify.sample_promisifyAll
           Promisify.sample_resolve ["fs"] ["redis"] "mongo"
           Promisify.sample_store
           (<[0%nat := ["readFile"; "readFileAsync"]]> Promisify.sample_store)
           (Promisify.CannotFindModule "mongo")); reflexivity.
Defined.

Lemma promisify_success_witness :
  let store' : gmap loc (list string) :=
    {[ 0%nat := ["readFile"; "readFileAsync"];
       1%nat := ["get"; "set"; "getAsync"; "setAsync"] ]} in
  (∀ (n : string) (l : loc),
     n ∈ ["fs"; "redis"] → Promisify.sample_resolve !! n = Some l →
     ∃ m m' : list string,
       Promisify.sample_store !! l = Some m ∧
       Promisify.sample_promisifyAll m = Some m' ∧
       store' !! l = Some m') ∧
  (∀ l : loc,
     l ∉ omap (λ n, Promisify.sample_resolve !! n) ["fs"; "redis"] →
     store' !! l = Promisify.sample_store !! l).
Proof.
  apply (promisify_success Promisify.sample_promisifyAll
           Promisify.sample_resolve ["fs"; "redis"] Promisify.sample_store
           {[ 0%nat := ["readFile"; "readFileAsync"];
              1%nat := ["get"; "set"; "getAsync"; "setAsync"] ]}).
  - apply (bool_decide_unpack _). vm_compute. reflexivity.
  - vm_compute. reflexivity.
Defined.

(** A module listed under two of its names is handed to [promisifyAll]
    twice; with the stand-in, the second turn throws on the object the first
    turn rewrote, and the work done so far stays. *)
Example promisify_twice :
  Promisify.promisifyModules Promisify.sample_promisifyAll
    Promisify.sample_resolve ["fs"; "redis"; "node:fs"]
    Promisify.sample_store =
    ({[ 0%nat := ["readFile"; "readFileAsync"];
        1%nat := ["get"; "set"; "getAsync"; "setAsync"] ]},
     Some (Promisify.CannotPromisify "node:fs")).
Proof. by vm_compute. Qed.

(** * What the client receives for an error *)

Lemma inherited_is_no_status (k : string) (v : value) :
  Object_prototype k = Some v → valid_status v = false ∧ truthy v = true.
Proof.
  unfold Object_prototype. intros Hv.
  repeat case_decide; by simplify_eq.
Qed.

Lemma settled_inherited (e : error_object) (k : string) (v : value) :
  truthy (statusCode e) = false →
  Server.statusCodeByErrorName !! k = None →
  Object_prototype k = Some v →
  settled e k = v.
Proof.
  intros Hf Hk Hp. destruct (inherited_is_no_status k v Hp) as [_ Ht].
  unfold settled, or, get. rewrite Hf, Hk, Hp. simpl. by rewrite Ht.
Qed.

(** On the generic path the handler writes the response itself when the
    settled code is a valid status; otherwise its [send] throws. *)
Lemma generic_path_ends (s : state) (err : loc) (e : error_object)
    (lg : logger) (k : string) :
  heap s !! err = Some e →
  name e ≠ VStr "UnauthorizedError" →
  req_logger (req s) = Some lg →
  toPropertyKey (heap s) (name e) = Some k →
  returns (errorHandler err s) = valid_status (settled e k) ∧
  res_statusCode (final (errorHandler err s)) = settled e k ∧
  heap (final (errorHandler err s)) !! err =
    Some (set_statusCode (settled e k) e) ∧
  delivered (errorPath err s) =
    (if valid_status (settled e k) then [settled e k] else []).
Proof.
  intros He Hn Hl Hk. destruct (truthy (statusCode e)) eqn:Ht.
  - rewrite (errorPath_explicit s err e lg He Hn Hl Ht).
    rewrite (errorHandler_explicit s err e lg He Hn Hl Ht).
    rewrite final_ended, returns_ended, (settled_explicit e k Ht). simpl.
    rewrite He, set_statusCode_same.
    by destruct (valid_status (statusCode e)).
  - rewrite (errorPath_classified s err e lg k He Hn Hl Ht Hk).
    rewrite (errorHandler_classified s err e lg k He Hn Hl Ht Hk).
    rewrite final_ended, returns_ended. simpl. rewrite lookup_insert_eq.
    by destruct (valid_status (settled e k)).
Qed.

(** Dispatching an error that is not an authorization failure, with
    nothing written before: the events are those of the handler, followed
    by the 500 of the final handler when the handler threw. *)
Lemma dispatchPath_generic (s : state) (err : loc) (e : error_object)
    (lg : logger) (k : string) :
  heap s !! err = Some e →
  name e ≠ VStr "UnauthorizedError" →
  req_logger (req s) = Some lg →
  toPropertyKey (heap s) (name e) = Some k →
  delivered (out s) = [] →
  dispatchPath err s =
    (errorPath err s ++
     if valid_status (settled e k) then [] else [Finalized (VNum 500)])%list.
Proof.
  intros He Hn Hl Hk Hd.
  destruct (generic_path_ends s err e lg k He Hn Hl Hk)
    as (Hret & Hcode & _ & Hdel).
  unfold dispatchPath. rewrite dispatch_final, Hret.
  destruct (valid_status (settled e k)) eqn:Hv.
  - by rewrite app_nil_r.
  - rewrite finalhandler_answers_500.
    + simpl. rewrite errorHandler_out, <- app_assoc.
      apply drop_app_length.
    + by rewrite errorHandler_out, delivered_app, Hd, Hdel.
    + by rewrite Hcode.
Qed.


(** The one response the client receives for a generic error. *)
Lemma delivered_generic (s : state) (err : loc) (e : error_object)
    (lg : logger) (k : string) :
  heap s !! err = Some e →
  name e ≠ VStr "UnauthorizedError" →
  req_logger (req s) = Some lg →
  toPropertyKey (heap s) (name e) = Some k →
  delivered (out s) = [] →
  delivered (dispatchPath err s) =
    [if valid_status (settled e k) then settled e k else VNum 500] ∧
  logged (dispatchPath err s) =
    [Entry (bindings lg) error (toString e) (ErrorDetail err);
     Entry (bindings lg) verbose "Responding to client" (Text (toString e))].
Proof.
  intros He Hn Hl Hk Hd.
  rewrite (dispatchPath_generic s err e lg k He Hn Hl Hk Hd).
  destruct (generic_path_ends s err e lg k He Hn Hl Hk) as (_ & _ & _ & Hdel).
  destruct (responses_generic s err e lg k He Hn Hl Hk) as [_ Hlog].
  rewrite delivered_app, logged_app, Hdel, Hlog.
  by destruct (valid_status (settled e k)).
Qed.


(** C4. An error without a status code of its own whose kind is
    'ValidationError' is answered with exactly 400, and so is one whose
    kind is 'CastError'; for any other kind the client receives exactly
    500, from the handler itself or, when the kind is the name of a
    property inherited from [Object.prototype] and the handler's [send]
    throws, from the final handler. *)
Theorem kind_decides_status (s : state) (err : loc) (e : error_object)
    (lg : logger) (k : string) :
  heap s !! err = Some e →
  req_logger (req s) = Some lg →
  name e ≠ VStr "UnauthorizedError" →
  toPropertyKey (heap s) (name e) = Some k →
  truthy (statusCode e) = false →
  delivered (out s) = [] →
  (k = "ValidationError" → delivered (dispatchPath err s) = [VNum 400]) ∧
  (k = "CastError" → delivered (dispatchPath err s) = [VNum 400]) ∧
  (k ≠ "ValidationError" → k ≠ "CastError" →
     delivered (dispatchPath err s) = [VNum 500]).
Proof.
  intros He Hl Hn Hk Hf Hd.
  destruct (delivered_generic s err e lg k He Hn Hl Hk Hd) as [-> _].
  split; [|split].
  - intros ->. by rewrite (settled_own e _ (VNum 400)).
  - intros ->. by rewrite (settled_own e _ (VNum 400)).
  - intros Hv Hc.
    assert (Server.statusCodeByErrorName !! k = None) as Hnone.
    { destruct (Server.statusCodeByErrorName !! k) as [v|] eqn:Hown; [|done].
      by destruct (table_own k v Hown) as [[-> | ->] _]. }
    destruct (Object_prototype k) as [v|] eqn:Hp.
    + rewrite (settled_inherited e k v Hf Hnone Hp).
      by destruct (inherited_is_no_status k v Hp) as [-> _].
    + by rewrite (settled_default e k Hf Hnone Hp).
Qed.

Lemma kind_decides_status_witness :
  let s := world (an_error (VStr "constructor") VUndefined)
                 (Some base_logger) in
  ("constructor" = "ValidationError" →
     delivered (dispatchPath 0%nat s) = [VNum 400]) ∧
  ("constructor" = "CastError" →
     delivered (dispatchPath 0%nat s) = [VNum 400]) ∧
  ("constructor" ≠ "ValidationError" → "constructor" ≠ "CastError" →
     delivered (dispatchPath 0%nat s) = [VNum 500]).
Proof.
  apply (kind_decides_status
           (world (an_error (VStr "constructor") VUndefined)
                  (Some base_logger))
           0%nat (an_error (VStr "constructor") VUndefined) base_logger
           "constructor"); [reflexivity | reflexivity | discriminate
                           | reflexivity..].
Defined.

(** C6, at the failing input.  The kind 'toString' is absent from the
    table, but the lookup of line 129 finds the function inherited from
    [Object.prototype]: it becomes [err.statusCode] in place of the default
    500, and the handler itself throws, in [res.send], without writing a
    response. *)
Theorem toString_kind_makes_handler_throw :
  let e := an_error (VStr "toString") VUndefined in
  let s := world e (Some base_logger) in
  Server.statusCodeByErrorName !! "toString" = None ∧
  heap (final (errorHandler 0%nat s)) !! 0%nat =
    Some (set_statusCode (VNative "toString") e) ∧
  returns (errorHandler 0%nat s) = false ∧
  delivered (errorPath 0%nat s) = [].
Proof. by vm_compute. Qed.






